(** * Sequali's function_dispatch.h: nucleotide and quality decoders, canonical k-mers

    A shallow embedding of [src/sequali/function_dispatch.h]:
    - [decode_bam_sequence_default] and [decode_bam_sequence_ssse3], the two
      decoders of BAM's packed 4-bit nucleotides;
    - [decode_bam_qualities], the Phred+33 quality decoder;
    - [NUCLEOTIDE_TO_TWOBIT], [reverse_complement_kmer] and
      [sequence_to_canonical_kmer], the canonical k-mer encoder.

    Buffers are lists of bytes, a pointer is an offset (a [Z]) into its
    buffer, and every read or write is bounds-checked: stepping outside a
    buffer or a table is a [fault], the embedding of C's undefined behaviour.
    Unsigned 64-bit values are [Z] with the wrap-around written out; the
    platform is a 64-bit one ([size_t], [uint64_t] and [Py_ssize_t] are 64
    bits wide, conversions to signed types are two's complement). *)

From Stdlib Require Import ZArith Lia List Bool Btauto.
From Stdlib Require Import Strings.Byte Strings.String.
From stdpp Require Import base tactics option list list_numbers.
From coqutil Require Import Z.bitblast.

Local Open Scope Z_scope.

(** ** Bytes *)

Definition byte_to_Z (b : byte) : Z := Z.of_N (Byte.to_N b).

(** Conversion to [uint8_t]: reduction modulo 256. *)
Definition Z_to_byte (z : Z) : byte :=
  default Byte.x00 (Byte.of_N (Z.to_N (z mod 256))).

Definition bytes_of_string (s : string) : list byte := list_byte_of_string s.

(** ** Faults and the result monad *)

Inductive fault : Type :=
  | BufferOverrun      (* a read or write outside a caller's buffer *)
  | TableOutOfBounds   (* an index outside a static lookup table *)
  | ShiftOutOfRange    (* a shift count that is not below the operand's width *)
  | OutOfFuel.         (* the loop model ran out of iterations; never happens *)

Inductive result (A : Type) : Type :=
  | Ok (a : A)
  | Fault (f : fault).
Arguments Ok {A} a.
Arguments Fault {A} f.

#[global] Instance result_ret : MRet result := fun A a => Ok a.
#[global] Instance result_bind : MBind result := fun A B k m =>
  match m with
  | Ok a => k a
  | Fault f => Fault f
  end.

#[global] Instance result_fmap : FMap result := fun A B f m =>
  match m with
  | Ok a => Ok (f a)
  | Fault e => Fault e
  end.

#[global] Instance fault_eq_dec : EqDecision fault.
Proof. solve_decision. Defined.

(** ** Memory accesses *)

(** [buf[i]] *)
Definition load (buf : list byte) (i : Z) : result byte :=
  if 0 <=? i then
    match buf !! Z.to_nat i with
    | Some b => Ok b
    | None => Fault BufferOverrun
    end
  else Fault BufferOverrun.

(** [n] bytes starting at [buf + i] *)
Definition load_bytes (buf : list byte) (i : Z) (n : nat) : result (list byte) :=
  if (0 <=? i) && (i + Z.of_nat n <=? Z.of_nat (length buf)) then
    Ok (take n (drop (Z.to_nat i) buf))
  else Fault BufferOverrun.

(** [buf[i] = v] *)
Definition store (buf : list byte) (i : Z) (v : byte) : result (list byte) :=
  if (0 <=? i) && (i <? Z.of_nat (length buf)) then
    Ok (<[Z.to_nat i := v]> buf)
  else Fault BufferOverrun.

(** The bytes [vs] written at [buf + i] *)
Definition store_bytes (buf : list byte) (i : Z) (vs : list byte)
  : result (list byte) :=
  if (0 <=? i) && (i + Z.of_nat (length vs) <=? Z.of_nat (length buf)) then
    Ok (list_inserts (Z.to_nat i) vs buf)
  else Fault BufferOverrun.

(** A static table indexed by a [size_t]. *)
Definition table_get {A} (table : list A) (i : Z) : result A :=
  if 0 <=? i then
    match table !! Z.to_nat i with
    | Some a => Ok a
    | None => Fault TableOutOfBounds
    end
  else Fault TableOutOfBounds.

(** ** Loops *)

(** [for (; i < hi; i += step) s = body(i, s);] which yields the final [i]
    with the final state.  The fuel is the distance to [hi], which no loop
    with a positive step exhausts ([for_loop_unfold]). *)
Fixpoint for_loop_fuel {S : Type} (fuel : nat) (i hi step : Z)
    (body : Z -> S -> result S) (s : S) : result (Z * S) :=
  if i <? hi then
    match fuel with
    | O => Fault OutOfFuel
    | Datatypes.S fuel' =>
        s' ← body i s;
        for_loop_fuel fuel' (i + step) hi step body s'
    end
  else Ok (i, s).

Definition for_loop {S : Type} (i hi step : Z)
    (body : Z -> S -> result S) (s : S) : result (Z * S) :=
  for_loop_fuel (Z.to_nat (hi - i)) i hi step body s.

(** ** The quality decoder *)

(** [decode_bam_qualities(dest, encoded_qualities, length)]; the two buffers
    are [restrict], hence distinct. *)
Definition decode_bam_qualities (dest : list byte)
    (encoded_qualities : list byte) (length : Z) : result (list byte) :=
  snd <$> for_loop 0 length 1
    (fun i dest =>
       q ← load encoded_qualities i;
       store dest i (Z_to_byte (byte_to_Z q + 33)))
    dest.

(** What [decode_bam_qualities] stores for one quality byte: the sum is
    computed in [int] and converted to [uint8_t]. *)
Definition phred33 (q : byte) : byte := Z_to_byte (byte_to_Z q + 33).

(** ** The reference nucleotide decoder *)

(** [static const char code2base[512]]: the two bases of every packed byte. *)
Definition code2base : list byte := bytes_of_string (
  "===A=C=M=G=R=S=V=T=W=Y=H=K=D=B=N" ++
  "A=AAACAMAGARASAVATAWAYAHAKADABAN" ++
  "C=CACCCMCGCRCSCVCTCWCYCHCKCDCBCN" ++
  "M=MAMCMMMGMRMSMVMTMWMYMHMKMDMBMN" ++
  "G=GAGCGMGGGRGSGVGTGWGYGHGKGDGBGN" ++
  "R=RARCRMRGRRRSRVRTRWRYRHRKRDRBRN" ++
  "S=SASCSMSGSRSSSVSTSWSYSHSKSDSBSN" ++
  "V=VAVCVMVGVRVSVVVTVWVYVHVKVDVBVN" ++
  "T=TATCTMTGTRTSTVTTTWTYTHTKTDTBTN" ++
  "W=WAWCWMWGWRWSWVWTWWWYWHWKWDWBWN" ++
  "Y=YAYCYMYGYRYSYVYTYWYYYHYKYDYBYN" ++
  "H=HAHCHMHGHRHSHVHTHWHYHHHKHDHBHN" ++
  "K=KAKCKMKGKRKSKVKTKWKYKHKKKDKBKN" ++
  "D=DADCDMDGDRDSDVDTDWDYDHDKDDDBDN" ++
  "B=BABCBMBGBRBSBVBTBWBYBHBKBDBBBN" ++
  "N=NANCNMNGNRNSNVNTNWNYNHNKNDNBNN")%string.

(** [nuc_lookup]: the string literal, with its terminating NUL. *)
Definition nuc_lookup : list byte :=
  bytes_of_string "=ACMGRSVTWYHKDBN" ++ [Byte.x00].

(** [n] bytes of a static table starting at index [i] (a [memcpy] source). *)
Definition table_get_bytes {A} (table : list A) (i : Z) (n : nat)
  : result (list A) :=
  if (0 <=? i) && (i + Z.of_nat n <=? Z.of_nat (length table)) then
    Ok (take n (drop (Z.to_nat i) table))
  else Fault TableOutOfBounds.

(** [decode_bam_sequence_default(dest, encoded_sequence, length)].  The
    pointer [dest] is the offset [dest] into the buffer [mem], and
    [encoded_sequence] is an offset into the read-only buffer [src]; the
    function returns the updated [mem]. *)
Definition decode_bam_sequence_default (mem : list byte) (dest : Z)
    (src : list byte) (encoded_sequence : Z) (length : Z)
  : result (list byte) :=
  let length_2 := length / 2 in
  '(_, mem) ← for_loop 0 length_2 1
    (fun i mem =>
       e ← load src (encoded_sequence + i);
       two ← table_get_bytes code2base (byte_to_Z e * 2) 2%nat;
       store_bytes mem (dest + i * 2) two)
    mem;
  if negb (Z.land length 1 =? 0) then
    e ← load src (encoded_sequence + length_2);
    let encoded := Z.shiftr (byte_to_Z e) 4 in
    b ← table_get nuc_lookup encoded;
    store mem (dest + (length - 1)) b
  else Ok mem.

(** ** The SSSE3 nucleotide decoder *)

(** An [__m128i] as its sixteen unsigned byte lanes, lane 0 first (the byte
    at the lowest address, the least significant of the register). *)
Abbreviation m128i := (list Z).

(** [_mm_setr_epi8(e0, ..., e15)]: the arguments are converted to [char],
    which keeps their low eight bits. *)
Definition _mm_setr_epi8 (es : list Z) : m128i :=
  (fun e => e mod 256) <$> es.

Definition _mm_set1_epi8 (e : Z) : m128i := replicate 16 (e mod 256).

(** An unaligned 16-byte load at offset [p] of [buf]. *)
Definition _mm_lddqu_si128 (buf : list byte) (p : Z) : result m128i :=
  bs ← load_bytes buf p 16%nat; Ok (map byte_to_Z bs).

(** An unaligned 16-byte store at offset [p] of [buf]. *)
Definition _mm_storeu_si128 (buf : list byte) (p : Z) (a : m128i)
  : result (list byte) :=
  store_bytes buf p (Z_to_byte <$> a).

(** [pshufb]: lane [i] of the result is zero when bit 7 of [b]'s lane [i] is
    set, and otherwise the lane of [a] selected by its low four bits. *)
Definition _mm_shuffle_epi8 (a b : m128i) : m128i :=
  (fun m => if Z.testbit m 7 then 0 else nth (Z.to_nat (Z.land m 15)) a 0)
    <$> b.

(** [psrlq]: each 64-bit half, read little-endian, shifted right by [imm8]
    with zeros shifted in. *)
Definition _mm_srli_epi64 (a : m128i) (imm8 : Z) : m128i :=
  let shift_lane lane :=
    Z_to_little_endian 8 8
      (if imm8 <? 64 then Z.shiftr (little_endian_to_Z 8 lane) imm8 else 0) in
  shift_lane (take 8 a) ++ shift_lane (drop 8 a).

Definition _mm_or_si128 (a b : m128i) : m128i := zip_with Z.lor a b.
Definition _mm_and_si128 (a b : m128i) : m128i := zip_with Z.land a b.

(** [sizeof(__m128i)] *)
Definition sizeof_m128i : Z := 16.

(** [decode_bam_sequence_ssse3(dest, encoded_sequence, length)], with the
    pointers as offsets into [mem] and [src] as in the reference decoder.
    The [while] loop advances [dest_cursor] by 32 up to [dest_vec_end_ptr],
    carrying [encoded_cursor] and the memory. *)
Definition decode_bam_sequence_ssse3 (mem : list byte) (dest : Z)
    (src : list byte) (encoded_sequence : Z) (length : Z)
  : result (list byte) :=
  let dest_end_ptr := dest + length in
  let dest_vec_end_ptr := dest_end_ptr - 2 * sizeof_m128i in
  let first_upper_shuffle := _mm_setr_epi8
    [0; 0xff; 1; 0xff; 2; 0xff; 3; 0xff; 4; 0xff; 5; 0xff; 6; 0xff; 7; 0xff] in
  let first_lower_shuffle := _mm_setr_epi8
    [0xff; 0; 0xff; 1; 0xff; 2; 0xff; 3; 0xff; 4; 0xff; 5; 0xff; 6; 0xff; 7] in
  let second_upper_shuffle := _mm_setr_epi8
    [8; 0xff; 9; 0xff; 10; 0xff; 11; 0xff; 12; 0xff; 13; 0xff; 14; 0xff; 15; 0xff] in
  let second_lower_shuffle := _mm_setr_epi8
    [0xff; 8; 0xff; 9; 0xff; 10; 0xff; 11; 0xff; 12; 0xff; 13; 0xff; 14; 0xff; 15] in
  nuc_lookup_vec ← _mm_lddqu_si128 nuc_lookup 0;
  '(dest_cursor, (encoded_cursor, mem)) ←
    for_loop dest dest_vec_end_ptr (2 * sizeof_m128i)
      (fun dest_cursor '(encoded_cursor, mem) =>
         encoded ← _mm_lddqu_si128 src encoded_cursor;

         let first_upper := _mm_shuffle_epi8 encoded first_upper_shuffle in
         let first_lower := _mm_shuffle_epi8 encoded first_lower_shuffle in
         let shifted_first_upper := _mm_srli_epi64 first_upper 4 in
         let first_merged := _mm_or_si128 shifted_first_upper first_lower in
         let first_indexes :=
           _mm_and_si128 first_merged (_mm_set1_epi8 0xf (* 0b1111 *)) in
         let first_nucleotides :=
           _mm_shuffle_epi8 nuc_lookup_vec first_indexes in
         mem ← _mm_storeu_si128 mem dest_cursor first_nucleotides;

         let second_upper := _mm_shuffle_epi8 encoded second_upper_shuffle in
         let second_lower := _mm_shuffle_epi8 encoded second_lower_shuffle in
         let shifted_second_upper := _mm_srli_epi64 second_upper 4 in
         let second_merged := _mm_or_si128 shifted_second_upper second_lower in
         let second_indexes :=
           _mm_and_si128 second_merged (_mm_set1_epi8 0xf (* 0b1111 *)) in
         let second_nucleotides :=
           _mm_shuffle_epi8 nuc_lookup_vec second_indexes in
         mem ← _mm_storeu_si128 mem (dest_cursor + 16) second_nucleotides;

         Ok (encoded_cursor + sizeof_m128i, mem))
      (encoded_sequence, mem);
  decode_bam_sequence_default mem dest_cursor src encoded_cursor
    (dest_end_ptr - dest_cursor).

(** *** What the decoders compute *)

(** The base of a 4-bit code: [nuc_lookup[code]]. *)
Definition base_of_code (code : Z) : byte :=
  nth (Z.to_nat code) nuc_lookup Byte.x00.

Definition high_nibble (b : byte) : Z := Z.shiftr (byte_to_Z b) 4.
Definition low_nibble (b : byte) : Z := Z.land (byte_to_Z b) 15.

(** The [i]-th 4-bit code of a packed buffer: the high nibble of byte [i/2]
    for an even [i], the low nibble for an odd [i]. *)
Definition code_at (src : list byte) (i : nat) : option Z :=
  b ← src !! (i / 2)%nat;
  Some (if Nat.even i then high_nibble b else low_nibble b).

(** The two bases of one packed byte, and the bases of a run of bytes. *)
Definition decode_byte (b : byte) : list byte :=
  [base_of_code (high_nibble b); base_of_code (low_nibble b)].

Definition decode_bytes (bs : list byte) : list byte :=
  flat_map decode_byte bs.

(** A byte lane after a 64-bit right shift by four: the high nibble of the
    lane's own byte [a] below the low nibble of its upper neighbour [b]. *)
Definition shifted_lane (a b : Z) : Z :=
  Z.lor (Z.shiftr a 4) (Z.shiftl (Z.land b 15) 4).

Definition is_u8 (a : Z) : Prop := 0 <= a < 256.

(** ** The canonical k-mer encoder *)

(** [uint64_t] and [size_t] values are kept in [0, 2^64); [wrap64] is the
    reduction every overflowing operation ends with. *)
Definition wrap64 (z : Z) : Z := z mod 2 ^ 64.

(** [x << n] on a 64-bit unsigned operand. *)
Definition shl64 (x n : Z) : Z := wrap64 (Z.shiftl x n).

(** Conversion of a 64-bit pattern to [int64_t] or [Py_ssize_t] (two's
    complement). *)
Definition to_int64 (z : Z) : Z :=
  let w := wrap64 z in if w <? 2 ^ 63 then w else w - 2 ^ 64.

Definition NUCLEOTIDE_TO_TWOBIT : list Z := [
(* Control characters *)
    4; 4; 4; 4; 4; 4; 4; 4; 4; 4; 4; 4; 4; 4; 4; 4;
    4; 4; 4; 4; 4; 4; 4; 4; 4; 4; 4; 4; 4; 4; 4; 4;
(* Interpunction numbers etc *)
    4; 4; 4; 4; 4; 4; 4; 4; 4; 4; 4; 4; 4; 4; 4; 4;
    4; 4; 4; 4; 4; 4; 4; 4; 4; 4; 4; 4; 4; 4; 4; 4;
(*     A, B, C, D, E, F, G, H, I, J, K, L, M, N, O, *)
    4; 0; 4; 1; 4; 4; 4; 2; 4; 4; 4; 4; 4; 4; 8; 4;
(*  P, Q, R, S, T, U, V, W, X, Y, Z,  *)
    4; 4; 4; 4; 3; 4; 4; 4; 4; 4; 4; 4; 4; 4; 4; 4;
(*     a, b, c, d, e, f, g, h, i, j, k, l, m, n, o, *)
    4; 0; 4; 1; 4; 4; 4; 2; 4; 4; 4; 4; 4; 4; 8; 4;
(*  p, q, r, s, t, u, v, w, x, y, z,  *)
    4; 4; 4; 4; 3; 4; 4; 4; 4; 4; 4; 4; 4; 4; 4; 4
].

Definition TWOBIT_UNKNOWN_CHAR : Z := -1.
Definition TWOBIT_N_CHAR : Z := -2.
Definition TWOBIT_SUCCESS : Z := 0.

(** [x >> n] on a 64-bit operand: a count of 64 or more is undefined. *)
Definition shr64 (x n : Z) : result Z :=
  if n <? 64 then Ok (Z.shiftr x n) else Fault ShiftOutOfRange.

Definition reverse_complement_kmer (kmer k : Z) : result Z :=
  (* Invert all the bits, with 0,1,2,3 == A,C,G,T this automatically is the
     complement. *)
  let comp := wrap64 (Z.lnot kmer) in
  (* Progressively swap all the twobits inplace. *)
  let revcomp := Z.lor (shl64 comp 32) (Z.shiftr comp 32) in
  let revcomp :=
    Z.lor (Z.shiftr (Z.land revcomp 0xFFFF0000FFFF0000) 16)
          (shl64 (Z.land revcomp 0x0000FFFF0000FFFF) 16) in
  let revcomp :=
    Z.lor (Z.shiftr (Z.land revcomp 0xFF00FF00FF00FF00) 8)
          (shl64 (Z.land revcomp 0x00FF00FF00FF00FF) 8) in
  let revcomp :=
    Z.lor (Z.shiftr (Z.land revcomp 0xF0F0F0F0F0F0F0F0) 4)
          (shl64 (Z.land revcomp 0x0F0F0F0F0F0F0F0F) 4) in
  let revcomp :=
    Z.lor (Z.shiftr (Z.land revcomp 0xCCCCCCCCCCCCCCCC) 2)
          (shl64 (Z.land revcomp 0x3333333333333333) 2) in
  (* If k < 32, the empty twobit slots will have ended up at the least
     significant bits. Use a shift to move them to the highest bits again. *)
  shr64 revcomp (wrap64 (64 - wrap64 (k * 2))).

(** [NUCLEOTIDE_TO_TWOBIT[sequence[i]]] *)
Definition nucleotide_at (sequence : list byte) (i : Z) : result Z :=
  c ← load sequence i;
  table_get NUCLEOTIDE_TO_TWOBIT (byte_to_Z c).

(** The end of [sequence_to_canonical_kmer], from [if (all_nucs > 3)] on:
    the value returned for the accumulated [kmer] and [all_nucs]. *)
Definition canonical_of_accumulators (kmer all_nucs k : Z) : result Z :=
  let canonical :=
    revcomp_kmer ← reverse_complement_kmer kmer k;
    (* If k is uneven there can be no ambiguity *)
    if revcomp_kmer >? kmer then Ok (to_int64 kmer)
    else Ok (to_int64 revcomp_kmer) in
  if all_nucs >? 3 then
    if negb (Z.land all_nucs 4 =? 0) then Ok TWOBIT_UNKNOWN_CHAR
    else if negb (Z.land all_nucs 8 =? 0) then Ok TWOBIT_N_CHAR
    else canonical
  else canonical.

(** [sequence_to_canonical_kmer(sequence, k)] on a 64-bit platform:
    [size_t] and [uint64_t] are unsigned 64-bit, [Py_ssize_t] and the
    [int64_t] result are signed 64-bit. *)
Definition sequence_to_canonical_kmer (sequence : list byte) (k : Z)
  : result Z :=
  let kmer := 0 in
  let all_nucs := 0 in
  let vector_end := to_int64 (k - 4) in
  '(i, (kmer, all_nucs)) ← for_loop 0 vector_end 4
    (fun i '(kmer, all_nucs) =>
       nuc0 ← nucleotide_at sequence i;
       nuc1 ← nucleotide_at sequence (i + 1);
       nuc2 ← nucleotide_at sequence (i + 2);
       nuc3 ← nucleotide_at sequence (i + 3);
       let all_nucs :=
         Z.lor all_nucs (Z.lor (Z.lor (Z.lor nuc0 nuc1) nuc2) nuc3) in
       let kchunk :=
         Z.lor (Z.lor (Z.lor (shl64 nuc0 6) (shl64 nuc1 4)) (shl64 nuc2 2))
               nuc3 in
       let kmer := shl64 kmer 8 in
       let kmer := Z.lor kmer kchunk in
       Ok (kmer, all_nucs))
    (kmer, all_nucs);
  '(i, (kmer, all_nucs)) ← for_loop i (to_int64 k) 1
    (fun i '(kmer, all_nucs) =>
       nuc ← nucleotide_at sequence i;
       let all_nucs := Z.lor all_nucs nuc in
       let kmer := shl64 kmer 2 in
       let kmer := Z.lor kmer nuc in
       Ok (kmer, all_nucs))
    (kmer, all_nucs);
  canonical_of_accumulators kmer all_nucs k.

(** *** What the encoder computes *)

(** The per-base loop on its own: one table lookup, [all_nucs |= nuc],
    [kmer <<= 2], [kmer |= nuc]. *)
Definition accumulate_base (st : Z * Z) (nuc : Z) : Z * Z :=
  let '(kmer, all_nucs) := st in
  (Z.lor (shl64 kmer 2) nuc, Z.lor all_nucs nuc).

(** The canonical k-mer by a loop over single bases only: the same function
    without the four-bases-at-a-time loop. *)
Definition sequence_to_canonical_kmer_naive (sequence : list byte) (k : Z)
  : result Z :=
  '(i, (kmer, all_nucs)) ← for_loop 0 (to_int64 k) 1
    (fun i '(kmer, all_nucs) =>
       nuc ← nucleotide_at sequence i;
       let all_nucs := Z.lor all_nucs nuc in
       let kmer := shl64 kmer 2 in
       let kmer := Z.lor kmer nuc in
       Ok (kmer, all_nucs))
    (0, 0);
  canonical_of_accumulators kmer all_nucs k.

(** The bodies of the two loops of [sequence_to_canonical_kmer]. *)
Abbreviation single_base sequence :=
  (fun (i : Z) '(kmer, all_nucs) =>
     nuc ← nucleotide_at sequence i;
     let all_nucs := Z.lor all_nucs nuc in
     let kmer := shl64 kmer 2 in
     let kmer := Z.lor kmer nuc in
     Ok (kmer, all_nucs)).

Abbreviation four_bases sequence :=
  (fun (i : Z) '(kmer, all_nucs) =>
     nuc0 ← nucleotide_at sequence i;
     nuc1 ← nucleotide_at sequence (i + 1);
     nuc2 ← nucleotide_at sequence (i + 2);
     nuc3 ← nucleotide_at sequence (i + 3);
     let all_nucs :=
       Z.lor all_nucs (Z.lor (Z.lor (Z.lor nuc0 nuc1) nuc2) nuc3) in
     let kchunk :=
       Z.lor (Z.lor (Z.lor (shl64 nuc0 6) (shl64 nuc1 4)) (shl64 nuc2 2))
             nuc3 in
     let kmer := shl64 kmer 8 in
     let kmer := Z.lor kmer kchunk in
     Ok (kmer, all_nucs)).

(** The accumulators after the bytes of a window, read left to right. *)
Fixpoint scan_window (window : list byte) (st : Z * Z) : result (Z * Z) :=
  match window with
  | [] => Ok st
  | c :: window' =>
      nuc ← table_get NUCLEOTIDE_TO_TWOBIT (byte_to_Z c);
      scan_window window' (accumulate_base st nuc)
  end.

(** The table entry of a 7-bit byte. *)
Definition twobit (c : byte) : Z :=
  nth (Z.to_nat (byte_to_Z c)) NUCLEOTIDE_TO_TWOBIT 0.

Definition is_ascii (c : byte) : bool := byte_to_Z c <? 128.

Local Open Scope byte_scope.

(** The four bases, in either case. *)
Definition is_acgt (c : byte) : bool :=
  match c with
  | "A" | "C" | "G" | "T" | "a" | "c" | "g" | "t" => true
  | _ => false
  end.

(** An explicit N. *)
Definition is_n (c : byte) : bool :=
  match c with
  | "N" | "n" => true
  | _ => false
  end.

(** The IUPAC ambiguity codes other than N, in either case. *)
Definition is_iupac_ambiguity (c : byte) : bool :=
  match c with
  | "R" | "Y" | "S" | "W" | "K" | "M" | "B" | "D" | "H" | "V"
  | "r" | "y" | "s" | "w" | "k" | "m" | "b" | "d" | "h" | "v" => true
  | _ => false
  end.

(** The 2-bit code of a base: A, C, G, T are 0, 1, 2, 3 (and 0 for any
    other byte, which no valid window contains). *)
Definition base_code (c : byte) : Z :=
  match c with
  | "A" | "a" => 0
  | "C" | "c" => 1
  | "G" | "g" => 2
  | "T" | "t" => 3
  | _ => 0
  end.

(** The packed value of a window, most significant base first. *)
Definition kmer_value (window : list byte) : Z :=
  fold_left (fun acc c => 4 * acc + base_code c) window 0.

(** Watson-Crick complement: A with T and C with G, keeping the case. *)
Definition complement_base (c : byte) : byte :=
  match c with
  | "A" => "T" | "T" => "A" | "C" => "G" | "G" => "C"
  | "a" => "t" | "t" => "a" | "c" => "g" | "g" => "c"
  | _ => c
  end.

Definition reverse_complement (window : list byte) : list byte :=
  rev (map complement_base window).

Local Close Scope byte_scope.

(** A letter in the other case; any other byte unchanged. *)
Definition swapcase (c : byte) : byte :=
  let z := byte_to_Z c in
  if (65 <=? z) && (z <=? 90) then Z_to_byte (z + 32)
  else if (97 <=? z) && (z <=? 122) then Z_to_byte (z - 32)
  else c.

(** [c'] is [c] up to a change of case. *)
Definition case_variant (c c' : byte) : Prop := c' = c \/ c' = swapcase c.

(** Little-endian 2-bit digits. *)
Fixpoint digits_le (ds : list Z) : Z :=
  match ds with
  | [] => 0
  | d :: ds' => d + 4 * digits_le ds'
  end.

(** One stage of the swap cascade of [reverse_complement_kmer]:
    [((x & hi) >> s) | ((x & lo) << s)]. *)
Definition swap_groups (hi lo s x : Z) : Z :=
  Z.lor (Z.shiftr (Z.land x hi) s) (shl64 (Z.land x lo) s).

(** Its first stage: [(x << 32) | (x >> 32)]. *)
Definition swap_halves (x : Z) : Z := Z.lor (shl64 x 32) (Z.shiftr x 32).

(** The whole cascade, between the complement and the final shift. *)
Definition reverse_twobits (x : Z) : Z :=
  swap_groups 0xCCCCCCCCCCCCCCCC 0x3333333333333333 2
    (swap_groups 0xF0F0F0F0F0F0F0F0 0x0F0F0F0F0F0F0F0F 4
       (swap_groups 0xFF00FF00FF00FF00 0x00FF00FF00FF00FF 8
          (swap_groups 0xFFFF0000FFFF0000 0x0000FFFF0000FFFF 16
             (swap_halves x)))).

(** The bit of the operand that a stage moves to position [n]. *)
Definition swap_source (hi s n : Z) : Z :=
  if Z.testbit hi (n + s) then n + s else n - s.

(** Exactly one of the two shifted halves reaches position [n]. *)
Definition swap_exclusive (hi lo s n : Z) : bool :=
  xorb (Z.testbit hi (n + s)) ((s <=? n) && Z.testbit lo (n - s)).

Definition is_twobit (d : Z) : Prop := 0 <= d <= 3.

(** A 7-bit byte that is neither a base nor an N: entry 4 of the table. *)
Definition is_unknown (c : byte) : bool :=
  is_ascii c && negb (is_acgt c) && negb (is_n c).

(** A 32-base window whose packed value and whose reverse complement both
    have the top bit set. *)
Definition window_G_A30_C : list byte :=
  bytes_of_string "GAAAAAAAAAAAAAAAAAAAAAAAAAAAAAAC".


(** ** The dispatcher *)

(** The functions the pointer [decode_bam_sequence] can hold. *)
Inductive decoder : Type :=
  | dispatch_fn   (* decode_bam_sequence_dispatch, the initial value *)
  | ssse3_fn      (* decode_bam_sequence_ssse3 *)
  | default_fn.   (* decode_bam_sequence_default *)

(** The initializer of the pointer. *)
Definition decode_bam_sequence_init : decoder := dispatch_fn.

(** A call [decode_bam_sequence(dest, encoded_sequence, length)] through
    the pointer, whose current value is [decode_bam_sequence]; the call
    returns the pointer as it leaves it, with the memory.
    [decode_bam_sequence_dispatch] stores the decoder that
    [__builtin_cpu_supports("ssse3")] selects and calls through the pointer
    again, so [depth] bounds the nesting of calls; one level is all that is
    ever used. *)
Fixpoint call_decode_bam_sequence (depth : nat) (cpu_supports_ssse3 : bool)
    (decode_bam_sequence : decoder) (mem : list byte) (dest : Z)
    (src : list byte) (encoded_sequence : Z) (length : Z)
  : decoder * result (list byte) :=
  match decode_bam_sequence with
  | ssse3_fn =>
      (decode_bam_sequence,
       decode_bam_sequence_ssse3 mem dest src encoded_sequence length)
  | default_fn =>
      (decode_bam_sequence,
       decode_bam_sequence_default mem dest src encoded_sequence length)
  | dispatch_fn =>
      let decode_bam_sequence :=
        if cpu_supports_ssse3 then ssse3_fn else default_fn in
      match depth with
      | O => (decode_bam_sequence, Fault OutOfFuel)
      | Datatypes.S depth' =>
          call_decode_bam_sequence depth' cpu_supports_ssse3
            decode_bam_sequence mem dest src encoded_sequence length
      end
  end.

Definition decode_bam_sequence (cpu_supports_ssse3 : bool)
    (pointer : decoder) (mem : list byte) (dest : Z)
    (src : list byte) (encoded_sequence : Z) (length : Z)
  : decoder * result (list byte) :=
  call_decode_bam_sequence 1 cpu_supports_ssse3 pointer mem dest src
    encoded_sequence length.

(** One call of a program: destination offset, packed buffer, offset of the
    packed bases in it, and number of bases. *)
Record decode_call : Type := {
  call_dest : Z;
  call_src : list byte;
  call_encoded_sequence : Z;
  call_length : Z
}.

(** A run of calls through the pointer on one destination memory, stopping
    at the first fault. *)
Fixpoint decode_calls (cpu_supports_ssse3 : bool) (pointer : decoder)
    (calls : list decode_call) (mem : list byte)
  : decoder * result (list byte) :=
  match calls with
  | [] => (pointer, Ok mem)
  | c :: calls' =>
      match decode_bam_sequence cpu_supports_ssse3 pointer mem
              (call_dest c) (call_src c) (call_encoded_sequence c)
              (call_length c) with
      | (pointer', Ok mem') =>
          decode_calls cpu_supports_ssse3 pointer' calls' mem'
      | (pointer', Fault f) => (pointer', Fault f)
      end
  end.

(** The same calls made to the reference decoder directly. *)
Fixpoint reference_calls (calls : list decode_call) (mem : list byte)
  : result (list byte) :=
  match calls with
  | [] => Ok mem
  | c :: calls' =>
      mem' ← decode_bam_sequence_default mem (call_dest c) (call_src c)
               (call_encoded_sequence c) (call_length c);
      reference_calls calls' mem'
  end.

(** The decoder the dispatcher settles on. *)
Definition resolved_decoder (cpu_supports_ssse3 : bool) (pointer : decoder)
  : decoder :=
  match pointer with
  | dispatch_fn => if cpu_supports_ssse3 then ssse3_fn else default_fn
  | _ => pointer
  end.

(** A well-formed call: offsets and length are not negative. *)
Definition call_wf (c : decode_call) : Prop :=
  0 <= call_dest c /\ 0 <= call_encoded_sequence c /\ 0 <= call_length c.
(** * Properties *)

(** ** Tactics for bitwise equalities *)

(** Bits at negative positions are clear. *)
Ltac neg_bits :=
  repeat match goal with
    | |- context [Z.testbit ?x ?j] => rewrite (Z.testbit_neg_r x j) by lia
    end.

(** Bit-by-bit equality, given a rewriting rule [high] for the bits that
    are known to be clear. *)
Ltac bits_with high :=
  Z.bitblast; rewrite ?high by (done || lia);
  neg_bits; cbn; try btauto.

(** ** Bytes *)

Lemma byte_to_Z_range b : 0 <= byte_to_Z b < 256.
Proof.
  unfold byte_to_Z. pose proof (Byte.to_N_bounded b). lia.
Qed.

Lemma byte_to_Z_to_byte z : byte_to_Z (Z_to_byte z) = z mod 256.
Proof.
  unfold byte_to_Z, Z_to_byte.
  assert (Hr : 0 <= z mod 256 < 256) by (apply Z.mod_pos_bound; lia).
  destruct (Byte.of_N (Z.to_N (z mod 256))) as [b|] eqn:Hb.
  - apply Byte.to_of_N in Hb. simpl. rewrite Hb. lia.
  - exfalso. pose proof (Byte.of_N_None_iff (Z.to_N (z mod 256))) as Hn.
    apply Hn in Hb. lia.
Qed.

Lemma Z_to_byte_to_Z b : Z_to_byte (byte_to_Z b) = b.
Proof.
  unfold Z_to_byte. pose proof (byte_to_Z_range b).
  rewrite Z.mod_small by lia. unfold byte_to_Z. rewrite N2Z.id.
  by rewrite Byte.of_to_N.
Qed.

Lemma byte_to_Z_inj b1 b2 : byte_to_Z b1 = byte_to_Z b2 -> b1 = b2.
Proof.
  intros H. rewrite <- (Z_to_byte_to_Z b1), <- (Z_to_byte_to_Z b2).
  by rewrite H.
Qed.

(** ** The result monad *)

Lemma bind_Ok {A B} (a : A) (k : A -> result B) : (Ok a ≫= k) = k a.
Proof. reflexivity. Qed.

Lemma bind_Fault {A B} (f : fault) (k : A -> result B) :
  (Fault f ≫= k) = Fault f.
Proof. reflexivity. Qed.

(** ** Loops *)

Section ForLoop.
Context {S : Type}.
Implicit Types (body : Z -> S -> result S) (s : S).

Lemma for_loop_fuel_enough body hi step : 0 < step -> forall f1 f2 i s,
  (Z.to_nat (hi - i) <= f1)%nat -> (Z.to_nat (hi - i) <= f2)%nat ->
  for_loop_fuel f1 i hi step body s = for_loop_fuel f2 i hi step body s.
Proof.
  intros Hstep. induction f1 as [|f1 IH]; intros f2 i s H1 H2.
  - destruct f2; simpl; destruct (Z.ltb_spec i hi); auto; lia.
  - destruct f2; simpl; destruct (Z.ltb_spec i hi); auto; try lia.
    destruct (body i s) as [s'|e]; simpl; auto.
    apply IH; lia.
Qed.

(** The loop as C runs it: test, body, increment, again. *)
Lemma for_loop_unfold body i hi step s : 0 < step ->
  for_loop i hi step body s =
    if i <? hi then s' ← body i s; for_loop (i + step) hi step body s'
    else Ok (i, s).
Proof.
  intros Hstep. unfold for_loop.
  destruct (Z.ltb_spec i hi) as [Hlt|Hge].
  - destruct (Z.to_nat (hi - i)) as [|f] eqn:Hf; [lia|].
    simpl. destruct (Z.ltb_spec i hi); [|lia].
    destruct (body i s) as [s'|e]; simpl; auto.
    apply for_loop_fuel_enough; auto; lia.
  - destruct (Z.to_nat (hi - i)); simpl; destruct (Z.ltb_spec i hi); auto; lia.
Qed.

Lemma for_loop_done body i hi step s : hi <= i ->
  for_loop i hi step body s = Ok (i, s).
Proof.
  intros H. unfold for_loop.
  destruct (Z.to_nat (hi - i)); simpl; destruct (Z.ltb_spec i hi); auto; lia.
Qed.

Lemma for_loop_step body i hi step s : 0 < step -> i < hi ->
  for_loop i hi step body s =
    s' ← body i s; for_loop (i + step) hi step body s'.
Proof.
  intros Hstep Hlt. rewrite for_loop_unfold by done.
  destruct (Z.ltb_spec i hi); [done|lia].
Qed.


End ForLoop.

(** Induction towards a loop's upper bound. *)
Lemma Z_upward_ind (P : Z -> Prop) (hi : Z) :
  (forall i, hi <= i -> P i) ->
  (forall i, i < hi -> (forall j, i < j -> P j) -> P i) ->
  forall i, P i.
Proof.
  intros Hdone Hstep i.
  assert (H : forall n j, (Z.to_nat (hi - j) < n)%nat -> P j).
  { induction n as [|n IH]; intros j Hj; [lia|].
    destruct (Z.le_gt_cases hi j) as [Hge|Hlt]; [by apply Hdone|].
    apply Hstep; [done|]. intros j' Hj'. apply IH. lia. }
  apply (H (Datatypes.S (Z.to_nat (hi - i)))). lia.
Qed.

(** The fuel never runs out: a loop faults only where its body does. *)
Lemma for_loop_fault {S} (body : Z -> S -> result S) hi step f :
  0 < step -> forall i s,
  for_loop i hi step body s = Fault f ->
  exists j t, body j t = Fault f.
Proof.
  intros Hstep i. pattern i. apply (Z_upward_ind _ hi); clear i.
  - intros i Hi s. by rewrite for_loop_done by done.
  - intros i Hi IH s. rewrite for_loop_step by done.
    destruct (body i s) as [s'|e] eqn:Hbody.
    + rewrite bind_Ok. apply IH. lia.
    + rewrite bind_Fault. intros [= ->]. by exists i, s.
Qed.

(** ** Memory accesses *)

Lemma load_Some buf i b :
  0 <= i -> buf !! Z.to_nat i = Some b -> load buf i = Ok b.
Proof.
  intros Hi Hb. unfold load. destruct (Z.leb_spec 0 i); [|lia]. by rewrite Hb.
Qed.

Lemma store_ok buf i v :
  0 <= i < Z.of_nat (length buf) ->
  store buf i v = Ok (<[Z.to_nat i := v]> buf).
Proof.
  intros Hi. unfold store.
  destruct (Z.leb_spec 0 i); [|lia].
  destruct (Z.ltb_spec i (Z.of_nat (length buf))); [done|lia].
Qed.

Lemma store_bytes_ok buf i vs :
  0 <= i -> i + Z.of_nat (length vs) <= Z.of_nat (length buf) ->
  store_bytes buf i vs = Ok (list_inserts (Z.to_nat i) vs buf).
Proof.
  intros Hi Hn. unfold store_bytes.
  destruct (Z.leb_spec 0 i); [|lia].
  destruct (Z.leb_spec (i + Z.of_nat (length vs)) (Z.of_nat (length buf)));
    [done|lia].
Qed.

Lemma load_bytes_ok buf i n :
  0 <= i -> i + Z.of_nat n <= Z.of_nat (length buf) ->
  load_bytes buf i n = Ok (take n (drop (Z.to_nat i) buf)).
Proof.
  intros Hi Hn. unfold load_bytes.
  destruct (Z.leb_spec 0 i); [|lia].
  destruct (Z.leb_spec (i + Z.of_nat n) (Z.of_nat (length buf))); [done|lia].
Qed.

(** Overwriting a whole segment of a buffer. *)
Lemma list_inserts_segment {A} (l vs : list A) (i : nat) :
  (i + length vs <= length l)%nat ->
  list_inserts i vs l = take i l ++ vs ++ drop (i + length vs) l.
Proof.
  intros Hlen.
  rewrite <- (take_drop i l) at 1.
  rewrite <- (take_drop (length vs) (drop i l)) at 1.
  rewrite drop_drop.
  assert (Hi : length (take i l) = i) by (rewrite length_take; lia).
  rewrite <- Hi at 1. replace (length (take i l)) with (length (take i l) + 0)%nat by lia.
  rewrite list_inserts_app_r, list_inserts_0_r; [done|].
  rewrite length_take, length_drop. lia.
Qed.

(** ** The quality decoder *)

Lemma decode_bam_qualities_loop src n : n <= Z.of_nat (length src) ->
  forall i dest, 0 <= i <= n -> n <= Z.of_nat (length dest) ->
  for_loop i n 1
    (fun i dest =>
       q ← load src i; store dest i (Z_to_byte (byte_to_Z q + 33))) dest
  = Ok (n, take (Z.to_nat i) dest
           ++ (phred33 <$> take (Z.to_nat (n - i)) (drop (Z.to_nat i) src))
           ++ drop (Z.to_nat n) dest).
Proof.
  intros Hsrc i. pattern i. apply (Z_upward_ind _ n); clear i.
  - intros i Hi dest Hin Hdest. assert (i = n) as -> by lia.
    rewrite for_loop_done by lia. rewrite Z.sub_diag. simpl.
    by rewrite take_drop.
  - intros i Hlt IH dest Hin Hdest.
    rewrite for_loop_step by lia.
    destruct (lookup_lt_is_Some_2 src (Z.to_nat i)) as [q Hq]; [lia|].
    rewrite (load_Some _ _ q) by (done || lia). simpl.
    rewrite store_ok by lia. simpl.
    rewrite IH by (rewrite ?length_insert; lia).
    f_equal. f_equal.
    replace (Z.to_nat (i + 1)) with (Datatypes.S (Z.to_nat i)) by lia.
    replace (Z.to_nat (n - i)) with (Datatypes.S (Z.to_nat (n - (i + 1)))) by lia.
    rewrite (drop_S src q (Z.to_nat i)) by done. simpl.
    rewrite (take_S_r _ _ (phred33 q))
      by (apply list_lookup_insert_eq; lia).
    rewrite take_insert_ge by lia.
    rewrite drop_insert_lt by lia.
    by rewrite <- app_assoc.
Qed.

Lemma decode_bam_qualities_closed dest src n :
  0 <= n <= Z.of_nat (length src) -> n <= Z.of_nat (length dest) ->
  decode_bam_qualities dest src n
  = Ok ((phred33 <$> take (Z.to_nat n) src) ++ drop (Z.to_nat n) dest).
Proof.
  intros Hsrc Hdest. unfold decode_bam_qualities.
  rewrite decode_bam_qualities_loop by lia.
  simpl. by rewrite Z.sub_0_r.
Qed.

(** Without wrap-around the stored byte is the sum itself. *)
Lemma phred33_small q :
  byte_to_Z q <= 222 -> byte_to_Z (phred33 q) = byte_to_Z q + 33.
Proof.
  intros H. unfold phred33. rewrite byte_to_Z_to_byte.
  pose proof (byte_to_Z_range q). apply Z.mod_small. lia.
Qed.

(** C8: [decode_bam_qualities] leaves [dest[i] = src[i] + 33], as a
    [uint8_t], at every [i < n] and touches nothing else: the buffer keeps
    its length and its bytes from [n] on.  For a quality in [0,93] the sum
    does not wrap and the output is the byte [src[i] + 33], in [33,126].
    With [n = 0] the call succeeds and the buffer is unchanged. *)
Theorem decode_bam_qualities_correct (dest src : list byte) (n : Z)
    (Hsrc : 0 <= n <= Z.of_nat (length src))
    (Hdest : n <= Z.of_nat (length dest)) :
  exists dest',
    decode_bam_qualities dest src n = Ok dest' /\
    length dest' = length dest /\
    (forall (i : nat) q, Z.of_nat i < n -> src !! i = Some q ->
       exists d, dest' !! i = Some d /\
         byte_to_Z d = (byte_to_Z q + 33) mod 256 /\
         (byte_to_Z q <= 93 ->
            byte_to_Z d = byte_to_Z q + 33 /\ 33 <= byte_to_Z d <= 126)) /\
    (forall i : nat, n <= Z.of_nat i -> dest' !! i = dest !! i) /\
    (n = 0 -> dest' = dest).
Proof.
  eexists. split; [by apply decode_bam_qualities_closed|].
  assert (Hlen : length (phred33 <$> take (Z.to_nat n) src) = Z.to_nat n).
  { rewrite length_fmap, length_take. lia. }
  split; [|split; [|split]].
  - rewrite length_app, Hlen, length_drop. lia.
  - intros i q Hi Hq. exists (phred33 q). split; [|split].
    + rewrite lookup_app_l by lia.
      rewrite list_lookup_fmap, lookup_take_lt by lia. by rewrite Hq.
    + unfold phred33. apply byte_to_Z_to_byte.
    + intros Hq93. pose proof (byte_to_Z_range q).
      rewrite phred33_small by lia. lia.
  - intros i Hi. rewrite lookup_app_r by lia.
    rewrite lookup_drop, Hlen. f_equal. lia.
  - intros ->. simpl. by rewrite drop_0.
Qed.

(** ** The reference nucleotide decoder *)

Lemma take_segment {A} (l vs : list A) (i : nat) :
  (i + length vs <= length l)%nat ->
  take (i + length vs) (take i l ++ vs ++ drop (i + length vs) l)
  = take i l ++ vs.
Proof.
  intros H. rewrite app_assoc. apply take_app_length'.
  rewrite length_app, length_take. lia.
Qed.

Lemma drop_segment {A} (l vs : list A) (i j : nat) :
  (i + length vs <= j)%nat -> (i + length vs <= length l)%nat ->
  drop j (take i l ++ vs ++ drop (i + length vs) l) = drop j l.
Proof.
  intros Hj H. rewrite app_assoc.
  rewrite drop_app_ge by (rewrite length_app, length_take; lia).
  rewrite length_app, length_take, drop_drop. f_equal. lia.
Qed.

(** [code2base] holds, at [2 * b], the bases of the two nibbles of [b]. *)
Lemma code2base_decode_byte b :
  table_get_bytes code2base (byte_to_Z b * 2) 2 = Ok (decode_byte b).
Proof. destruct b; vm_compute; reflexivity. Qed.

Lemma nuc_lookup_high_nibble b :
  table_get nuc_lookup (Z.shiftr (byte_to_Z b) 4)
  = Ok (base_of_code (high_nibble b)).
Proof. destruct b; vm_compute; reflexivity. Qed.

Lemma decode_bytes_cons b bs :
  decode_bytes (b :: bs) = decode_byte b ++ decode_bytes bs.
Proof. reflexivity. Qed.

Lemma decode_bytes_app bs1 bs2 :
  decode_bytes (bs1 ++ bs2) = decode_bytes bs1 ++ decode_bytes bs2.
Proof. unfold decode_bytes. apply flat_map_app. Qed.

Lemma length_decode_bytes bs : length (decode_bytes bs) = (2 * length bs)%nat.
Proof.
  induction bs as [|b bs IH]; [done|].
  rewrite decode_bytes_cons. simpl. rewrite IH. lia.
Qed.

Lemma take_decode_bytes_even bs (h : nat) :
  take (2 * h) (decode_bytes bs) = decode_bytes (take h bs).
Proof.
  revert bs. induction h as [|h IH]; intros bs; [done|].
  destruct bs as [|b bs]; [done|].
  replace (2 * Datatypes.S h)%nat with (Datatypes.S (Datatypes.S (2 * h))) by lia.
  simpl take. rewrite !decode_bytes_cons. simpl. by rewrite <- IH.
Qed.

Lemma take_decode_bytes_odd bs (h : nat) b :
  bs !! h = Some b ->
  take (2 * h + 1) (decode_bytes bs)
  = decode_bytes (take h bs) ++ [base_of_code (high_nibble b)].
Proof.
  revert bs. induction h as [|h IH]; intros bs Hb.
  - destruct bs as [|b' bs]; [done|]. by simplify_eq/=.
  - destruct bs as [|b' bs]; [done|]. simpl in Hb.
    replace (2 * Datatypes.S h + 1)%nat
      with (Datatypes.S (Datatypes.S (2 * h + 1))) by lia.
    simpl take. rewrite !decode_bytes_cons. simpl. by rewrite <- IH.
Qed.

(** The loop over whole packed bytes. *)
Lemma decode_bam_sequence_default_loop src d e h :
  0 <= d -> 0 <= e -> e + h <= Z.of_nat (length src) ->
  forall i mem, 0 <= i <= h -> d + 2 * h <= Z.of_nat (length mem) ->
  for_loop i h 1
    (fun i mem =>
       b ← load src (e + i);
       two ← table_get_bytes code2base (byte_to_Z b * 2) 2;
       store_bytes mem (d + i * 2) two) mem
  = Ok (h, take (Z.to_nat (d + 2 * i)) mem
           ++ decode_bytes (take (Z.to_nat (h - i)) (drop (Z.to_nat (e + i)) src))
           ++ drop (Z.to_nat (d + 2 * h)) mem).
Proof.
  intros Hd He Hsrc i. pattern i. apply (Z_upward_ind _ h); clear i.
  - intros i Hi mem Hih Hmem. assert (i = h) as -> by lia.
    rewrite for_loop_done by lia. rewrite Z.sub_diag. simpl.
    by rewrite take_drop.
  - intros i Hlt IH mem Hih Hmem.
    rewrite for_loop_step by lia.
    destruct (lookup_lt_is_Some_2 src (Z.to_nat (e + i))) as [b Hb]; [lia|].
    rewrite (load_Some _ _ b), bind_Ok by (done || lia).
    rewrite code2base_decode_byte, bind_Ok.
    rewrite store_bytes_ok, bind_Ok by (simpl; lia).
    rewrite IH by (rewrite ?length_inserts; lia).
    f_equal. f_equal.
    set (k := Z.to_nat (d + i * 2)).
    rewrite (list_inserts_segment mem (decode_byte b) k) by (simpl; lia).
    replace (Z.to_nat (d + 2 * (i + 1))) with (k + length (decode_byte b))%nat
      by (simpl; lia).
    rewrite take_segment by (simpl; lia).
    rewrite drop_segment by (simpl; lia).
    replace (Z.to_nat (d + 2 * i)) with k by lia.
    replace (Z.to_nat (h - i)) with (Datatypes.S (Z.to_nat (h - (i + 1)))) by lia.
    rewrite (drop_S src b (Z.to_nat (e + i))) by done.
    replace (Datatypes.S (Z.to_nat (e + i))) with (Z.to_nat (e + (i + 1))) by lia.
    simpl take. rewrite decode_bytes_cons. by rewrite <- !app_assoc.
Qed.

(** The reference decoder overwrites [mem[dest .. dest+length)] with the
    first [length] bases of the packed bytes at [encoded_sequence]. *)
Lemma decode_bam_sequence_default_closed mem d src e n :
  0 <= d -> 0 <= e -> 0 <= n ->
  d + n <= Z.of_nat (length mem) ->
  e + (n + 1) / 2 <= Z.of_nat (length src) ->
  decode_bam_sequence_default mem d src e n
  = Ok (take (Z.to_nat d) mem
        ++ take (Z.to_nat n) (decode_bytes (drop (Z.to_nat e) src))
        ++ drop (Z.to_nat (d + n)) mem).
Proof.
  intros Hd He Hn Hmem Hsrc. unfold decode_bam_sequence_default.
  assert (Hmod : 0 <= n mod 2 < 2) by (apply Z.mod_pos_bound; lia).
  assert (Hodd : n = 2 * (n / 2) + n mod 2) by (Z.div_mod_to_equations; lia).
  assert (Hhalf : (n + 1) / 2 = n / 2 + n mod 2)
    by (Z.div_mod_to_equations; lia).
  rewrite (decode_bam_sequence_default_loop src d e (n / 2)) by lia.
  rewrite bind_Ok. rewrite Z.sub_0_r, Z.mul_0_r, !Z.add_0_r.
  change (Z.land n 1) with (Z.land n (Z.ones 1)).
  rewrite Z.land_ones by lia. change (2 ^ 1) with 2.
  set (h := Z.to_nat (n / 2)).
  destruct (Z.eqb_spec (n mod 2) 0) as [H0|H1]; cbn [negb].
  - f_equal.
    replace (Z.to_nat n) with (2 * h)%nat by lia.
    rewrite take_decode_bytes_even, take_drop_commute.
    do 3 f_equal; lia.
  - destruct (lookup_lt_is_Some_2 src (Z.to_nat (e + n / 2))) as [b Hb]; [lia|].
    rewrite (load_Some _ _ b), bind_Ok by (done || lia).
    rewrite nuc_lookup_high_nibble, bind_Ok.
    set (body := decode_bytes (take h (drop (Z.to_nat e) src))).
    assert (Hbody : length body = (2 * h)%nat).
    { unfold body. rewrite length_decode_bytes, length_take, length_drop. lia. }
    rewrite store_ok
      by (rewrite !length_app, length_take, length_drop, Hbody; lia).
    f_equal.
    replace (Z.to_nat n) with (2 * h + 1)%nat by lia.
    rewrite (take_decode_bytes_odd _ h b)
      by (rewrite lookup_drop; rewrite <- Hb; f_equal; lia).
    fold body.
    destruct (lookup_lt_is_Some_2 mem (Z.to_nat (d + 2 * (n / 2))))
      as [c Hc]; [lia|].
    rewrite (drop_S mem c _ Hc).
    rewrite app_assoc.
    rewrite insert_app_r_alt
      by (rewrite length_app, length_take, Hbody; lia).
    replace (Z.to_nat (d + (n - 1)) - length (take (Z.to_nat d) mem ++ body))%nat
      with 0%nat by (rewrite length_app, length_take, Hbody; lia).
    simpl. rewrite <- !app_assoc. simpl.
    do 4 f_equal. lia.
Qed.

Lemma lookup_decode_bytes bs (i : nat) :
  decode_bytes bs !! i =
    b ← bs !! (i / 2)%nat;
    Some (base_of_code (if Nat.even i then high_nibble b else low_nibble b)).
Proof.
  revert i. induction bs as [|b bs IH]; intros i; [done|].
  rewrite decode_bytes_cons.
  destruct i as [|[|i]]; [done..|].
  replace (Datatypes.S (Datatypes.S i) / 2)%nat with (Datatypes.S (i / 2)).
  - simpl. apply IH.
  - replace (Datatypes.S (Datatypes.S i)) with (i + 1 * 2)%nat by lia.
    rewrite Nat.div_add by lia. lia.
Qed.

Lemma high_nibble_range b : 0 <= high_nibble b < 16.
Proof.
  unfold high_nibble. pose proof (byte_to_Z_range b).
  rewrite Z.shiftr_div_pow2 by lia. change (2 ^ 4) with 16.
  Z.div_mod_to_equations. lia.
Qed.

Lemma low_nibble_range b : 0 <= low_nibble b < 16.
Proof.
  unfold low_nibble. change 15 with (Z.ones 4).
  rewrite Z.land_ones by lia. apply Z.mod_pos_bound. lia.
Qed.

(** [base_of_code] reads the sixteen-symbol alphabet. *)
Lemma base_of_code_alphabet c : 0 <= c < 16 ->
  bytes_of_string "=ACMGRSVTWYHKDBN" !! Z.to_nat c = Some (base_of_code c).
Proof.
  intros Hc.
  assert (Hn : (Z.to_nat c < 16)%nat) by lia.
  unfold base_of_code. generalize dependent (Z.to_nat c). intros n Hn.
  do 16 (destruct n as [|n]; [reflexivity|]). lia.
Qed.

(** C7: the reference decoder writes [n] bytes: position [i < n] receives
    the symbol of the alphabet [=ACMGRSVTWYHKDBN] selected by the [i]-th
    4-bit code alone (the high nibble of byte [i/2] for an even [i], the low
    nibble for an odd [i]); the buffer keeps its length and its bytes from
    [n] on.  For an odd [n] the last base is the high nibble of the last
    packed byte. *)
Theorem decode_bam_sequence_default_correct (dest src : list byte) (n : Z)
    (Hn : 0 <= n)
    (Hdest : n <= Z.of_nat (length dest))
    (Hsrc : (n + 1) / 2 <= Z.of_nat (length src)) :
  exists dest',
    decode_bam_sequence_default dest 0 src 0 n = Ok dest' /\
    length dest' = length dest /\
    (forall i : nat, Z.of_nat i < n ->
       exists c, code_at src i = Some c /\ 0 <= c < 16 /\
         dest' !! i = bytes_of_string "=ACMGRSVTWYHKDBN" !! Z.to_nat c) /\
    (forall i : nat, n <= Z.of_nat i -> dest' !! i = dest !! i) /\
    (forall b, Z.odd n = true -> src !! Z.to_nat (n / 2) = Some b ->
       dest' !! Z.to_nat (n - 1) = Some (base_of_code (high_nibble b))).
Proof.
  eexists. split; [apply decode_bam_sequence_default_closed; lia|].
  simpl. rewrite drop_0.
  set (dec := take (Z.to_nat n) (decode_bytes src)).
  assert (Hdec : length dec = Z.to_nat n).
  { unfold dec. rewrite length_take, length_decode_bytes.
    Z.div_mod_to_equations. lia. }
  assert (Hlook : forall i : nat, Z.of_nat i < n ->
    exists b, src !! (i / 2)%nat = Some b /\
      dec !! i = Some (base_of_code
        (if Nat.even i then high_nibble b else low_nibble b))).
  { intros i Hi.
    assert (Hi2 : Z.of_nat (i / 2) = Z.of_nat i / 2).
    { rewrite Nat2Z.inj_div. done. }
    destruct (lookup_lt_is_Some_2 src (i / 2)%nat) as [b Hb].
    { Z.div_mod_to_equations. lia. }
    exists b. split; [done|].
    unfold dec. rewrite lookup_take_lt by lia.
    rewrite lookup_decode_bytes, Hb. done. }
  split; [|split; [|split]].
  - rewrite length_app, Hdec, length_drop. lia.
  - intros i Hi. destruct (Hlook i Hi) as (b & Hb & Hd).
    unfold code_at. rewrite Hb. simpl.
    eexists. split; [done|].
    rewrite lookup_app_l by lia. rewrite Hd.
    destruct (Nat.even i).
    + split; [apply high_nibble_range|].
      symmetry. apply base_of_code_alphabet, high_nibble_range.
    + split; [apply low_nibble_range|].
      symmetry. apply base_of_code_alphabet, low_nibble_range.
  - intros i Hi. rewrite lookup_app_r by lia.
    rewrite lookup_drop, Hdec. f_equal. lia.
  - intros b Hodd Hb.
    rewrite Z.odd_spec in Hodd. destruct Hodd as [m Hm].
    assert (Hm2 : n / 2 = m) by (Z.div_mod_to_equations; lia).
    destruct (Hlook (Z.to_nat (n - 1))) as (b' & Hb' & Hd); [lia|].
    rewrite lookup_app_l by lia. rewrite Hd.
    assert (Heven : Nat.even (Z.to_nat (n - 1)) = true).
    { apply Nat.even_spec. exists (Z.to_nat m). lia. }
    rewrite Heven.
    replace (Z.to_nat (n - 1) / 2)%nat with (Z.to_nat (n / 2)) in Hb'.
    + by simplify_eq.
    + rewrite Hm2. replace (Z.to_nat (n - 1)) with (Z.to_nat m * 2)%nat by lia.
      by rewrite Nat.div_mul.
Qed.

Lemma decode_bam_sequence_default_correct_witness :
  exists dest',
    decode_bam_sequence_default (replicate 6 Byte.x00) 0
      (Z_to_byte <$> [0x12; 0x48; 0xF0]) 0 5 = Ok dest' /\
    dest' = bytes_of_string "ACGTN" ++ [Byte.x00].
Proof.
  destruct (decode_bam_sequence_default_correct (replicate 6 Byte.x00)
              (Z_to_byte <$> [0x12; 0x48; 0xF0]) 5)
    as (dest' & Hrun & _); [lia | simpl; lia | vm_compute; discriminate |].
  exists dest'. split; [exact Hrun|].
  vm_compute in Hrun. by injection Hrun as <-.
Defined.

Lemma decode_bam_qualities_correct_witness :
  exists dest',
    decode_bam_qualities (replicate 4 Byte.x00)
      (Z_to_byte <$> [0; 40; 93]) 3 = Ok dest' /\
    dest' = bytes_of_string "!I~" ++ [Byte.x00].
Proof.
  destruct (decode_bam_qualities_correct (replicate 4 Byte.x00)
              (Z_to_byte <$> [0; 40; 93]) 3)
    as (dest' & Hrun & _); [simpl; lia | simpl; lia |].
  exists dest'. split; [exact Hrun|].
  vm_compute in Hrun. by injection Hrun as <-.
Defined.

(** ** The SSSE3 nucleotide decoder *)

Lemma testbit_u8_high a i : is_u8 a -> 8 <= i -> Z.testbit a i = false.
Proof.
  unfold is_u8. intros Ha Hi.
  destruct (Z.eq_dec a 0) as [->|Hne]; [apply Z.testbit_0_l|].
  apply Z.bits_above_log2; [lia|].
  assert (Z.log2 a < 8); [|lia]. apply Z.log2_lt_pow2; lia.
Qed.

(** Three facts on a little-endian number [a + 256 * r] with [a] a byte. *)
Lemma le_drop_byte a r : is_u8 a -> Z.shiftr (Z.lor a (Z.shiftl r 8)) 8 = r.
Proof. intros Ha. bits_with (testbit_u8_high a). Qed.

Lemma le_low_byte a r : is_u8 a -> Z.land (Z.lor a (Z.shiftl r 8)) 255 = a.
Proof. intros Ha. change 255 with (Z.ones 8). bits_with (testbit_u8_high a). Qed.

Lemma le_shifted_lane a r : is_u8 a ->
  Z.land (Z.shiftr (Z.lor a (Z.shiftl r 8)) 4) (Z.ones 8)
  = shifted_lane a (Z.land r 255).
Proof.
  intros Ha. unfold shifted_lane.
  change 15 with (Z.ones 4). change 255 with (Z.ones 8). bits_with (testbit_u8_high a).
Qed.

(** A 64-bit lane shifted right by four, byte by byte. *)
Lemma srli4_lane (lane : list Z) :
  Forall is_u8 lane ->
  Z_to_little_endian (Z.of_nat (length lane)) 8
    (Z.shiftr (little_endian_to_Z 8 lane) 4)
  = zip_with shifted_lane lane (drop 1 lane ++ [0]).
Proof.
  induction 1 as [|a lane Ha Hlane IH]; [done|].
  cbn [length little_endian_to_Z].
  rewrite Nat2Z.inj_succ, Z_to_little_endian_succ by lia.
  rewrite Z.shiftr_shiftr by lia.
  replace (4 + 8) with (8 + 4) by lia. rewrite <- Z.shiftr_shiftr by lia.
  rewrite le_drop_byte by done.
  rewrite IH, le_shifted_lane by done.
  cbn [drop]. rewrite drop_0. destruct Hlane as [|a' lane' Ha' Hl']; [done|].
  cbn [little_endian_to_Z]. by rewrite le_low_byte.
Qed.

Lemma _mm_srli_epi64_4 (a : list Z) :
  length a = 16%nat -> Forall is_u8 a ->
  _mm_srli_epi64 a 4
  = zip_with shifted_lane (take 8 a) (drop 1 (take 8 a) ++ [0])
    ++ zip_with shifted_lane (drop 8 a) (drop 1 (drop 8 a) ++ [0]).
Proof.
  intros Hlen Ha. unfold _mm_srli_epi64.
  change (4 <? 64) with true. cbv iota. f_equal.
  - rewrite <- srli4_lane by (by apply Forall_take).
    by rewrite length_take, Hlen.
  - rewrite <- srli4_lane by (by apply Forall_drop).
    by rewrite length_drop, Hlen.
Qed.

(** The index lanes: an even lane holds the high nibble of its byte, an odd
    lane the low nibble, whatever the shift brought in from the neighbour. *)
Lemma index_even_lane x :
  is_u8 x -> Z.land (Z.lor (shifted_lane x 0) 0) 15 = Z.shiftr x 4.
Proof.
  intros Hx. unfold shifted_lane. change 15 with (Z.ones 4). bits_with (testbit_u8_high x).
Qed.

Lemma index_odd_lane x y :
  Z.land (Z.lor (shifted_lane 0 y) x) 15 = Z.land x 15.
Proof.
  unfold shifted_lane. change 15 with (Z.ones 4). bits_with (testbit_u8_high x).
Qed.

(** The table shuffle at an index below sixteen is [nuc_lookup]. *)
Lemma nuc_shuffle_lane c : 0 <= c < 16 ->
  (if Z.testbit c 7 then 0
   else nth (Z.to_nat (Z.land c 15))
          (map byte_to_Z (take 16 (drop (Z.to_nat 0) nuc_lookup))) 0)
  = byte_to_Z (base_of_code c).
Proof.
  intros Hc.
  assert (H : c = 0 \/ c = 1 \/ c = 2 \/ c = 3 \/ c = 4 \/ c = 5 \/ c = 6 \/
              c = 7 \/ c = 8 \/ c = 9 \/ c = 10 \/ c = 11 \/ c = 12 \/
              c = 13 \/ c = 14 \/ c = 15) by lia.
  repeat (destruct H as [->|H]; [reflexivity|]). by subst.
Qed.

Lemma Z_to_byte_base_of_code c :
  Z_to_byte (byte_to_Z (base_of_code c)) = base_of_code c.
Proof. apply Z_to_byte_to_Z. Qed.

Lemma shiftr4_range x : is_u8 x -> 0 <= Z.shiftr x 4 < 16.
Proof.
  unfold is_u8. intros Hx. rewrite Z.shiftr_div_pow2 by lia.
  change (2 ^ 4) with 16. Z.div_mod_to_equations. lia.
Qed.

Lemma land15_range x : 0 <= Z.land x 15 < 16.
Proof.
  change 15 with (Z.ones 4). rewrite Z.land_ones by lia.
  apply Z.mod_pos_bound. lia.
Qed.

(** The two halves of the vector loop's body on sixteen packed bytes: the
    first decodes bytes 0..7, the second bytes 8..15.  Both are evaluated on
    symbolic lanes: the two input shuffles, the shift, the merge, the mask
    and the table shuffle. *)
Lemma ssse3_nucleotides (bs : list byte) : length bs = 16%nat ->
  Z_to_byte <$>
    _mm_shuffle_epi8 (map byte_to_Z (take 16 (drop (Z.to_nat 0) nuc_lookup)))
      (_mm_and_si128
         (_mm_or_si128
            (_mm_srli_epi64
               (_mm_shuffle_epi8 (map byte_to_Z bs)
                  (_mm_setr_epi8
                     [0; 0xff; 1; 0xff; 2; 0xff; 3; 0xff;
                      4; 0xff; 5; 0xff; 6; 0xff; 7; 0xff])) 4)
            (_mm_shuffle_epi8 (map byte_to_Z bs)
               (_mm_setr_epi8
                  [0xff; 0; 0xff; 1; 0xff; 2; 0xff; 3;
                   0xff; 4; 0xff; 5; 0xff; 6; 0xff; 7])))
         (_mm_set1_epi8 0xf))
  = decode_bytes (take 8 bs) /\
  Z_to_byte <$>
    _mm_shuffle_epi8 (map byte_to_Z (take 16 (drop (Z.to_nat 0) nuc_lookup)))
      (_mm_and_si128
         (_mm_or_si128
            (_mm_srli_epi64
               (_mm_shuffle_epi8 (map byte_to_Z bs)
                  (_mm_setr_epi8
                     [8; 0xff; 9; 0xff; 10; 0xff; 11; 0xff;
                      12; 0xff; 13; 0xff; 14; 0xff; 15; 0xff])) 4)
            (_mm_shuffle_epi8 (map byte_to_Z bs)
               (_mm_setr_epi8
                  [0xff; 8; 0xff; 9; 0xff; 10; 0xff; 11;
                   0xff; 12; 0xff; 13; 0xff; 14; 0xff; 15])))
         (_mm_set1_epi8 0xf))
  = decode_bytes (drop 8 bs).
Proof.
  intros Hlen.
  do 17 (destruct bs as [|?b bs]; try discriminate Hlen). clear Hlen.
  unfold decode_bytes, decode_byte, high_nibble, low_nibble.
  cbn [map take drop flat_map app].
  repeat match goal with
    | |- context [byte_to_Z ?b] =>
        let x := fresh "x" in let Hx := fresh "Hx" in
        assert (Hx : is_u8 (byte_to_Z b)) by apply byte_to_Z_range;
        generalize dependent (byte_to_Z b); intros x Hx
    end.
  split.
  all: match goal with
       | |- context [_mm_srli_epi64 ?a 4] =>
           let a' := eval cbv in a in change a with a';
           rewrite (_mm_srli_epi64_4 a')
             by (reflexivity ||
                 (repeat (constructor;
                          [assumption || (unfold is_u8; lia)|]);
                  constructor))
       end.
  all: match goal with
       | |- context [_mm_or_si128 ?a ?b] =>
           let b' := eval cbv in b in change b with b'
       end.
  all: cbn [take drop app zip_with _mm_or_si128 _mm_and_si128 _mm_set1_epi8
            replicate _mm_shuffle_epi8 fmap list_fmap].
  all: change (15 mod 256) with 15.
  all: rewrite ?index_even_lane, ?index_odd_lane by done.
  all: rewrite !nuc_shuffle_lane
         by (apply shiftr4_range || apply land15_range; done).
  all: by rewrite !Z_to_byte_base_of_code.
Qed.

(** The vector loop followed by the reference decoder on the rest, for any
    loop body that decodes sixteen packed bytes into thirty-two bases. *)
Section VectorLoop.
Variables (src : list byte) (dest length : Z).
Variable body : Z -> Z * list byte -> result (Z * list byte).
Hypothesis body_spec : forall c e mem,
  0 <= c -> 0 <= e ->
  c + 32 <= Z.of_nat (List.length mem) ->
  e + 16 <= Z.of_nat (List.length src) ->
  body c (e, mem)
  = Ok (e + 16,
        take (Z.to_nat c) mem
        ++ decode_bytes (take 16 (drop (Z.to_nat e) src))
        ++ drop (Z.to_nat (c + 32)) mem).

Lemma take_decode_bytes_block (e : Z) (m : nat) : 0 <= e ->
  e + 16 <= Z.of_nat (List.length src) -> (32 <= m)%nat ->
  take m (decode_bytes (drop (Z.to_nat e) src))
  = decode_bytes (take 16 (drop (Z.to_nat e) src))
    ++ take (m - 32) (decode_bytes (drop (Z.to_nat (e + 16)) src)).
Proof.
  intros He Hsrc Hm.
  rewrite <- (take_drop 16 (drop (Z.to_nat e) src)) at 1.
  rewrite decode_bytes_app, drop_drop.
  assert (Hlen : List.length (decode_bytes (take 16 (drop (Z.to_nat e) src)))
                 = 32%nat).
  { rewrite length_decode_bytes, length_take, length_drop. lia. }
  rewrite take_app_ge by lia. rewrite Hlen.
  do 4 f_equal. lia.
Qed.

Lemma vector_loop_then_default : forall c e mem,
  0 <= c <= dest + length -> 0 <= e ->
  dest + length <= Z.of_nat (List.length mem) ->
  e + (dest + length - c + 1) / 2 <= Z.of_nat (List.length src) ->
  ('(dest_cursor, (encoded_cursor, mem)) ←
     for_loop c (dest + length - 32) 32 body (e, mem);
   decode_bam_sequence_default mem dest_cursor src encoded_cursor
     (dest + length - dest_cursor))
  = Ok (take (Z.to_nat c) mem
        ++ take (Z.to_nat (dest + length - c))
             (decode_bytes (drop (Z.to_nat e) src))
        ++ drop (Z.to_nat (dest + length)) mem).
Proof.
  intros c. pattern c. apply (Z_upward_ind _ (dest + length - 32)); clear c.
  - intros c Hc e mem Hcr He Hmem Hsrc.
    rewrite for_loop_done, bind_Ok by lia.
    rewrite decode_bam_sequence_default_closed by lia.
    do 4 f_equal. lia.
  - intros c Hc IH e mem Hcr He Hmem Hsrc.
    assert (e + 16 <= Z.of_nat (List.length src))
      by (Z.div_mod_to_equations; lia).
    rewrite for_loop_step by lia.
    rewrite body_spec, bind_Ok by lia.
    set (blk := decode_bytes (take 16 (drop (Z.to_nat e) src))).
    assert (Hblk : List.length blk = 32%nat).
    { unfold blk. rewrite length_decode_bytes, length_take, length_drop. lia. }
    assert (Hseg : Z.to_nat (c + 32) = (Z.to_nat c + List.length blk)%nat)
      by lia.
    rewrite IH.
    + rewrite Hseg, take_segment by lia.
      f_equal. rewrite <- app_assoc. f_equal.
      rewrite (take_decode_bytes_block e (Z.to_nat (dest + length - c)))
        by lia.
      fold blk. rewrite <- app_assoc. f_equal.
      rewrite drop_segment by lia.
      do 3 f_equal. lia.
    + lia.
    + lia.
    + lia.
    + rewrite !length_app, length_take, length_drop. lia.
    + Z.div_mod_to_equations. lia.
Qed.
End VectorLoop.

(** The SSSE3 decoder in closed form: the same bytes as the reference. *)
Lemma decode_bam_sequence_ssse3_closed mem d src e n :
  0 <= d -> 0 <= e -> 0 <= n ->
  d + n <= Z.of_nat (length mem) ->
  e + (n + 1) / 2 <= Z.of_nat (length src) ->
  decode_bam_sequence_ssse3 mem d src e n
  = Ok (take (Z.to_nat d) mem
        ++ take (Z.to_nat n) (decode_bytes (drop (Z.to_nat e) src))
        ++ drop (Z.to_nat (d + n)) mem).
Proof.
  intros Hd He Hn Hmem Hsrc. unfold decode_bam_sequence_ssse3.
  cbv zeta.
  change (_mm_lddqu_si128 nuc_lookup 0)
    with (Ok (map byte_to_Z (take 16 (drop (Z.to_nat 0) nuc_lookup)))).
  rewrite bind_Ok.
  change (2 * sizeof_m128i) with 32.
  rewrite vector_loop_then_default.
  - do 4 f_equal. lia.
  - clear. intros c e mem Hc He Hmem Hsrc.
    unfold _mm_lddqu_si128, _mm_storeu_si128.
    rewrite load_bytes_ok, !bind_Ok by lia.
    set (bs := take 16 (drop (Z.to_nat e) src)).
    assert (Hbs : length bs = 16%nat).
    { unfold bs. rewrite length_take, length_drop. lia. }
    destruct (ssse3_nucleotides bs Hbs) as [-> ->].
    assert (H1 : length (decode_bytes (take 8 bs)) = 16%nat).
    { rewrite length_decode_bytes, length_take. lia. }
    assert (H2 : length (decode_bytes (drop 8 bs)) = 16%nat).
    { rewrite length_decode_bytes, length_drop. lia. }
    rewrite store_bytes_ok, bind_Ok by lia.
    rewrite store_bytes_ok, bind_Ok by (rewrite ?length_inserts; lia).
    unfold sizeof_m128i. do 2 f_equal.
    replace (Z.to_nat (c + 16))
      with (length (decode_bytes (take 8 bs)) + Z.to_nat c)%nat by lia.
    rewrite <- list_inserts_app_l, <- decode_bytes_app, take_drop.
    rewrite list_inserts_segment
      by (rewrite length_decode_bytes; lia).
    do 3 f_equal. rewrite length_decode_bytes. lia.
  - lia.
  - lia.
  - lia.
  - replace (d + n - d + 1) with (n + 1) by lia. lia.
Qed.

(** C1: on every destination and packed buffer that hold [n] bases, the
    SSSE3 decoder returns the very buffer the reference decoder returns,
    for every [n] from zero up and wherever the two pointers start. *)
Theorem decode_bam_sequence_ssse3_equiv
    (mem src : list byte) (dest encoded_sequence n : Z)
    (Hdest : 0 <= dest) (Henc : 0 <= encoded_sequence) (Hn : 0 <= n)
    (Hmem : dest + n <= Z.of_nat (length mem))
    (Hsrc : encoded_sequence + (n + 1) / 2 <= Z.of_nat (length src)) :
  exists out,
    decode_bam_sequence_default mem dest src encoded_sequence n = Ok out /\
    decode_bam_sequence_ssse3 mem dest src encoded_sequence n = Ok out.
Proof.
  eexists. split.
  - by apply decode_bam_sequence_default_closed.
  - by apply decode_bam_sequence_ssse3_closed.
Qed.

Lemma decode_bam_sequence_ssse3_equiv_witness :
  exists out,
    decode_bam_sequence_default (replicate 70 Byte.x00) 1
      (Z_to_byte <$> seqZ 100 40) 2 67 = Ok out /\
    decode_bam_sequence_ssse3 (replicate 70 Byte.x00) 1
      (Z_to_byte <$> seqZ 100 40) 2 67 = Ok out.
Proof.
  apply decode_bam_sequence_ssse3_equiv;
    [lia | lia | lia | vm_compute; discriminate | vm_compute; discriminate].
Defined.

(** ** The canonical k-mer encoder: the two loops *)

Lemma wrap64_land z : wrap64 z = Z.land z (Z.ones 64).
Proof. unfold wrap64. by rewrite Z.land_ones. Qed.

Lemma wrap64_small z : 0 <= z < 2 ^ 64 -> wrap64 z = z.
Proof. intros H. unfold wrap64. by apply Z.mod_small. Qed.

Lemma wrap64_range z : 0 <= wrap64 z < 2 ^ 64.
Proof. unfold wrap64. apply Z.mod_pos_bound. lia. Qed.

Lemma to_int64_small z : - 2 ^ 63 <= z < 2 ^ 63 -> to_int64 z = z.
Proof.
  intros Hz. unfold to_int64, wrap64.
  destruct (Z.ltb_spec (z mod 2 ^ 64) (2 ^ 63)) as [Hlt|Hge];
    Z.div_mod_to_equations; lia.
Qed.

Lemma shl64_lor x y n : 0 <= n ->
  shl64 (Z.lor x y) n = Z.lor (shl64 x n) (shl64 y n).
Proof. intros Hn. unfold shl64. rewrite !wrap64_land. Z.bitblast. Qed.

Lemma shl64_shl64 x m n : 0 <= m -> 0 <= n ->
  shl64 (shl64 x m) n = shl64 x (m + n).
Proof.
  intros Hm Hn. unfold shl64. rewrite !wrap64_land.
  Z.bitblast; neg_bits; cbn; btauto.
Qed.

(** Four single-base steps shift and merge exactly as one chunk does. *)
Lemma chunk_is_four_bases kmer n0 n1 n2 n3 :
  Z.lor (shl64 (Z.lor (shl64 (Z.lor (shl64 (Z.lor (shl64 kmer 2) n0) 2) n1) 2)
                  n2) 2) n3
  = Z.lor (shl64 kmer 8)
      (Z.lor (Z.lor (Z.lor (shl64 n0 6) (shl64 n1 4)) (shl64 n2 2)) n3).
Proof.
  rewrite !shl64_lor, !shl64_shl64 by lia. simpl Z.add.
  by rewrite !Z.lor_assoc.
Qed.

(** The chunked loop followed by the per-base loop is the per-base loop. *)
Lemma chunks_then_bases sequence vector_end k : vector_end + 3 <= k ->
  forall i st,
  for_loop i k 1 (single_base sequence) st
  = match for_loop i vector_end 4 (four_bases sequence) st with
    | Ok (i', st') => for_loop i' k 1 (single_base sequence) st'
    | Fault f => Fault f
    end.
Proof.
  intros Hve i. pattern i. apply (Z_upward_ind _ vector_end); clear i.
  - intros i Hi st. by rewrite (for_loop_done _ i vector_end) by lia.
  - intros i Hi IH [kmer all_nucs].
    rewrite (for_loop_step _ i vector_end) by lia.
    rewrite (for_loop_step _ i k) by lia.
    destruct (nucleotide_at sequence i) as [nuc0|f];
      [rewrite !bind_Ok | reflexivity].
    rewrite (for_loop_step _ (i + 1) k) by lia.
    destruct (nucleotide_at sequence (i + 1)) as [nuc1|f];
      [rewrite !bind_Ok | reflexivity].
    replace (i + 1 + 1) with (i + 2) by lia.
    rewrite (for_loop_step _ (i + 2) k) by lia.
    destruct (nucleotide_at sequence (i + 2)) as [nuc2|f];
      [rewrite !bind_Ok | reflexivity].
    replace (i + 2 + 1) with (i + 3) by lia.
    rewrite (for_loop_step _ (i + 3) k) by lia.
    destruct (nucleotide_at sequence (i + 3)) as [nuc3|f];
      [rewrite !bind_Ok | reflexivity].
    replace (i + 3 + 1) with (i + 4) by lia.
    cbv zeta.
    rewrite (IH (i + 4)) by lia.
    rewrite chunk_is_four_bases.
    by rewrite <- !Z.lor_assoc.
Qed.

(** C6: for every window and every [k] in [1,32], the encoder with its
    four-bases-at-a-time loop and the encoder that only ever takes one base
    per iteration (shift by 2, or in the code) end the same way: the same
    returned value, the same error value or the same fault. *)
Theorem chunked_accumulation_is_naive (sequence : list byte) (k : Z)
    (Hk : 1 <= k <= 32) :
  sequence_to_canonical_kmer sequence k
  = sequence_to_canonical_kmer_naive sequence k.
Proof.
  unfold sequence_to_canonical_kmer, sequence_to_canonical_kmer_naive.
  cbv zeta.
  rewrite !to_int64_small by lia.
  rewrite (chunks_then_bases sequence (k - 4) k) by lia.
  by destruct (for_loop 0 (k - 4) 4 _ _) as [[i [kmer all_nucs]]|f].
Qed.

Lemma chunked_accumulation_is_naive_witness :
  sequence_to_canonical_kmer (bytes_of_string "ACGTTGCANACGT") 13
  = sequence_to_canonical_kmer_naive (bytes_of_string "ACGTTGCANACGT") 13.
Proof. apply chunked_accumulation_is_naive. lia. Defined.

(** ** The accumulators of a window *)

Lemma table_get_twobit c :
  table_get NUCLEOTIDE_TO_TWOBIT (byte_to_Z c)
  = if is_ascii c then Ok (twobit c) else Fault TableOutOfBounds.
Proof. destruct c; reflexivity. Qed.

(** The per-base loop from index [i] scans the bytes [i .. k) of the
    sequence, and no other. *)
Lemma bases_loop_scan (sequence : list byte) (k : Z) :
  k <= Z.of_nat (length sequence) ->
  forall i st, 0 <= i <= k ->
  for_loop i k 1 (single_base sequence) st
  = st' ← scan_window
            (take (Z.to_nat (k - i)) (drop (Z.to_nat i) sequence)) st;
    Ok (k, st').
Proof.
  intros Hlen i. pattern i. apply (Z_upward_ind _ k); clear i.
  - intros i Hi st Hr. rewrite for_loop_done by lia.
    replace (Z.to_nat (k - i)) with 0%nat by lia.
    rewrite take_0. cbn [scan_window]. rewrite bind_Ok. do 2 f_equal. lia.
  - intros i Hi IH [kmer all_nucs] Hr.
    rewrite for_loop_step by lia.
    destruct (lookup_lt_is_Some_2 sequence (Z.to_nat i)) as [c Hc]; [lia|].
    rewrite (drop_S _ c _ Hc).
    replace (Z.to_nat (k - i)) with (Datatypes.S (Z.to_nat (k - (i + 1))))
      by lia.
    cbn [take scan_window].
    unfold nucleotide_at. rewrite (load_Some _ _ c), bind_Ok by (done || lia).
    destruct (table_get NUCLEOTIDE_TO_TWOBIT (byte_to_Z c)) as [nuc|f];
      [|reflexivity].
    rewrite !bind_Ok. cbv zeta. rewrite IH by lia.
    replace (Z.to_nat (i + 1)) with (Datatypes.S (Z.to_nat i)) by lia.
    reflexivity.
Qed.

(** The encoder on a buffer of at least [k] bytes: scan the first [k],
    then finish. *)
Lemma sequence_to_canonical_kmer_scan_prefix (sequence : list byte) (k : Z) :
  1 <= k <= 32 -> k <= Z.of_nat (length sequence) ->
  sequence_to_canonical_kmer sequence k
  = '(kmer, all_nucs) ← scan_window (take (Z.to_nat k) sequence) (0, 0);
    canonical_of_accumulators kmer all_nucs k.
Proof.
  intros Hk Hlen. unfold sequence_to_canonical_kmer. cbv zeta.
  rewrite !to_int64_small by lia.
  pose proof (chunks_then_bases sequence (k - 4) k ltac:(lia) 0 (0, 0))
    as Hloop.
  pose proof (bases_loop_scan sequence k Hlen 0 (0, 0) ltac:(lia)) as Hscan.
  cbv zeta in Hloop, Hscan. rewrite Hscan in Hloop. clear Hscan.
  change (Z.to_nat 0) with 0%nat in Hloop.
  rewrite drop_0, Z.sub_0_r in Hloop.
  destruct (for_loop 0 (k - 4) 4 _ _) as [[i [kmer all_nucs]]|f].
  - rewrite bind_Ok. cbv beta iota. rewrite <- Hloop.
    by destruct (scan_window _ (0, 0)) as [[kmer' all_nucs']|f].
  - by destruct (scan_window _ (0, 0)) as [[kmer' all_nucs']|f'];
      simplify_eq/=.
Qed.

(** Only the first [k] bytes of the buffer matter. *)
Lemma sequence_to_canonical_kmer_window (sequence : list byte) (k : Z) :
  1 <= k <= 32 -> k <= Z.of_nat (length sequence) ->
  sequence_to_canonical_kmer sequence k
  = sequence_to_canonical_kmer (take (Z.to_nat k) sequence) k.
Proof.
  intros Hk Hlen.
  rewrite !sequence_to_canonical_kmer_scan_prefix
    by (rewrite ?length_take; lia).
  by rewrite take_take, Nat.min_id.
Qed.

(** The encoder on a whole window. *)
Lemma sequence_to_canonical_kmer_scan (window : list byte) :
  1 <= Z.of_nat (length window) <= 32 ->
  sequence_to_canonical_kmer window (Z.of_nat (length window))
  = '(kmer, all_nucs) ← scan_window window (0, 0);
    canonical_of_accumulators kmer all_nucs (Z.of_nat (length window)).
Proof.
  intros Hk. rewrite sequence_to_canonical_kmer_scan_prefix by lia.
  by rewrite Nat2Z.id, firstn_all.
Qed.

Lemma scan_window_ascii window : forall st,
  Forall (fun c => is_ascii c = true) window ->
  scan_window window st
  = Ok (fold_left accumulate_base (map twobit window) st).
Proof.
  induction window as [|c window IH]; intros st Hw; [done|].
  inversion Hw as [|? ? Hc Hw']; subst.
  cbn [scan_window map fold_left]. rewrite table_get_twobit, Hc, bind_Ok.
  by apply IH.
Qed.

Lemma scan_window_not_ascii window : forall st,
  Exists (fun c => is_ascii c = false) window ->
  scan_window window st = Fault TableOutOfBounds.
Proof.
  induction window as [|c window IH]; intros st Hw;
    [by inversion Hw|].
  cbn [scan_window]. rewrite table_get_twobit.
  destruct (is_ascii c) eqn:Hc; [|reflexivity].
  rewrite bind_Ok. apply IH.
  inversion Hw as [? ? Hc'|]; subst; [congruence|done].
Qed.

Lemma ascii_or_not (window : list byte) :
  Forall (fun c => is_ascii c = true) window \/
  Exists (fun c => is_ascii c = false) window.
Proof.
  induction window as [|c window [IH|IH]].
  - left. constructor.
  - destruct (is_ascii c) eqn:Hc.
    + left. by constructor.
    + right. by constructor.
  - right. by constructor.
Qed.

(** ** The reverse complement, bit by bit *)

Lemma reverse_complement_kmer_cascade kmer k :
  reverse_complement_kmer kmer k
  = shr64 (reverse_twobits (wrap64 (Z.lnot kmer)))
      (wrap64 (64 - wrap64 (k * 2))).
Proof. reflexivity. Qed.

Lemma testbit_u64_high x n : 0 <= x < 2 ^ 64 -> 64 <= n -> Z.testbit x n = false.
Proof.
  intros Hx Hn. destruct (Z.eq_dec x 0) as [->|Hne]; [apply Z.testbit_0_l|].
  apply Z.bits_above_log2; [lia|].
  assert (Z.log2 x < 64); [|lia]. apply Z.log2_lt_pow2; lia.
Qed.

Lemma shl64_bits x s n : 0 <= n < 64 ->
  Z.testbit (shl64 x s) n = Z.testbit x (n - s).
Proof.
  intros Hn. unfold shl64, wrap64.
  rewrite Z.mod_pow2_bits_low by lia. apply Z.shiftl_spec. lia.
Qed.

Lemma wrap64_lnot_bits x n : 0 <= n < 64 ->
  Z.testbit (wrap64 (Z.lnot x)) n = negb (Z.testbit x n).
Proof.
  intros Hn. unfold wrap64.
  rewrite Z.mod_pow2_bits_low by lia. apply Z.lnot_spec. lia.
Qed.

Lemma swap_groups_bits hi lo s x n :
  0 <= s -> 0 <= n < 64 -> swap_exclusive hi lo s n = true ->
  Z.testbit (swap_groups hi lo s x) n = Z.testbit x (swap_source hi s n).
Proof.
  intros Hs Hn Hex. unfold swap_groups, swap_source, swap_exclusive in *.
  rewrite Z.lor_spec, Z.shiftr_spec, shl64_bits, !Z.land_spec by lia.
  destruct (Z.testbit hi (n + s)).
  - destruct (Z.leb_spec s n) as [Hle|Hlt].
    + simpl in Hex. apply negb_true_iff in Hex. rewrite Hex.
      by rewrite andb_true_r, andb_false_r, orb_false_r.
    + rewrite (Z.testbit_neg_r x (n - s)) by lia.
      by rewrite andb_true_r, orb_false_r.
  - simpl in Hex. apply andb_true_iff in Hex as [_ Hlo]. rewrite Hlo.
    by rewrite andb_false_r, andb_true_r.
Qed.

Lemma swap_halves_bits x n : 0 <= x < 2 ^ 64 -> 0 <= n < 64 ->
  Z.testbit (swap_halves x) n
  = Z.testbit x (if n <? 32 then n + 32 else n - 32).
Proof.
  intros Hx Hn. unfold swap_halves.
  rewrite Z.lor_spec, Z.shiftr_spec, shl64_bits by lia.
  destruct (Z.ltb_spec n 32).
  - by rewrite (Z.testbit_neg_r x (n - 32)) by lia.
  - rewrite (testbit_u64_high x (n + 32)) by lia. by rewrite orb_false_r.
Qed.

(** The cascade reverses the order of the 32 two-bit groups: bit [b] of
    group [g] comes from bit [b] of group [31 - g]. *)
Lemma reverse_twobits_bits x n : 0 <= x < 2 ^ 64 -> 0 <= n < 64 ->
  Z.testbit (reverse_twobits x) n = Z.testbit x (62 - n + 2 * (n mod 2)).
Proof.
  intros Hx Hn.
  assert (Hnat : n = Z.of_nat (Z.to_nat n)) by lia.
  assert (Hlt : (Z.to_nat n < 64)%nat) by lia.
  revert Hnat Hlt. generalize (Z.to_nat n). intros m -> Hm. clear Hn.
  do 64 (destruct m as [|m];
    [ unfold reverse_twobits;
      repeat (rewrite swap_groups_bits by (lia || reflexivity);
              match goal with
              | |- context [swap_source ?h ?s ?j] =>
                  let v := eval vm_compute in (swap_source h s j) in
                  change (swap_source h s j) with v
              end);
      rewrite swap_halves_bits by (done || lia);
      reflexivity
    | ]).
  lia.
Qed.

(** ** Packed values as 2-bit digits *)

Lemma digits_le_range ds : Forall is_twobit ds ->
  0 <= digits_le ds < 4 ^ Z.of_nat (length ds).
Proof.
  unfold is_twobit. induction 1 as [|d ds Hd Hds IH]; [simpl; lia|].
  cbn [digits_le length]. rewrite Nat2Z.inj_succ, Z.pow_succ_r by lia. lia.
Qed.

Lemma twobit_plus_bits d r n : is_twobit d -> 0 <= n ->
  Z.testbit (d + 4 * r) n
  = if n <? 2 then Z.testbit d n else Z.testbit r (n - 2).
Proof.
  unfold is_twobit. intros Hd Hn. destruct (Z.ltb_spec n 2) as [Hlt|Hge].
  - rewrite <- (Z.mod_pow2_bits_low (d + 4 * r) 2 n) by lia.
    change (2 ^ 2) with 4.
    replace ((d + 4 * r) mod 4) with d by (Z.div_mod_to_equations; lia).
    done.
  - replace n with ((n - 2) + 2) at 1 by lia.
    rewrite <- Z.shiftr_spec by lia. rewrite Z.shiftr_div_pow2 by lia.
    change (2 ^ 2) with 4.
    replace ((d + 4 * r) / 4) with r by (Z.div_mod_to_equations; lia).
    done.
Qed.

(** Bit [n] of a packed value is bit [n mod 2] of its digit [n / 2]. *)
Lemma digits_le_bits ds : Forall is_twobit ds -> forall n, 0 <= n ->
  Z.testbit (digits_le ds) n
  = Z.testbit (nth (Z.to_nat (n / 2)) ds 0) (n mod 2).
Proof.
  induction 1 as [|d ds Hd Hds IH]; intros n Hn.
  - cbn [digits_le]. rewrite Z.testbit_0_l.
    destruct (Z.to_nat (n / 2)); cbn [nth]; by rewrite Z.testbit_0_l.
  - cbn [digits_le]. rewrite twobit_plus_bits by done.
    destruct (Z.ltb_spec n 2) as [Hlt|Hge].
    + replace (n / 2) with 0 by (Z.div_mod_to_equations; lia).
      replace (n mod 2) with n by (Z.div_mod_to_equations; lia). done.
    + rewrite IH by lia.
      replace (Z.to_nat (n / 2))
        with (Datatypes.S (Z.to_nat ((n - 2) / 2)))
        by (Z.div_mod_to_equations; lia).
      replace ((n - 2) mod 2) with (n mod 2)
        by (Z.div_mod_to_equations; lia).
      done.
Qed.

Lemma complement_twobit_bits d b : is_twobit d -> 0 <= b < 2 ->
  Z.testbit (3 - d) b = negb (Z.testbit d b).
Proof.
  unfold is_twobit. intros Hd Hb.
  assert (Hd' : d = 0 \/ d = 1 \/ d = 2 \/ d = 3) by lia.
  assert (Hb' : b = 0 \/ b = 1) by lia.
  destruct Hd' as [-> | [-> | [-> | ->]]], Hb' as [-> | ->]; reflexivity.
Qed.

Lemma reverse_twobits_high x n : 64 <= n ->
  Z.testbit (reverse_twobits x) n = false.
Proof.
  intros Hn. unfold reverse_twobits, swap_groups at 1.
  rewrite Z.lor_spec, Z.shiftr_spec, Z.land_spec by lia.
  rewrite (testbit_u64_high 0xCCCCCCCCCCCCCCCC) by lia.
  unfold shl64, wrap64. rewrite Z.mod_pow2_bits_high by lia.
  by rewrite andb_false_r.
Qed.

Lemma reverse_twobits_range x : 0 <= reverse_twobits x < 2 ^ 64.
Proof.
  assert (Hnn : 0 <= reverse_twobits x).
  { unfold reverse_twobits, swap_groups at 1.
    apply Z.lor_nonneg. split.
    - apply Z.shiftr_nonneg, Z.land_nonneg. right. lia.
    - apply wrap64_range. }
  split; [done|].
  destruct (Z.eq_dec (reverse_twobits x) 0) as [->|Hne]; [lia|].
  apply Z.log2_lt_pow2; [lia|].
  destruct (Z.lt_ge_cases (Z.log2 (reverse_twobits x)) 64) as [|Hge]; [done|].
  pose proof (Z.bit_log2 (reverse_twobits x) ltac:(lia)) as Hbit.
  by rewrite reverse_twobits_high in Hbit.
Qed.

(** The shift count of [reverse_complement_kmer] for a legal [k]. *)
Lemma revcomp_shift_count k : 1 <= k <= 32 ->
  wrap64 (64 - wrap64 (k * 2)) = 64 - 2 * k.
Proof.
  intros Hk. rewrite (wrap64_small (k * 2)) by lia.
  rewrite wrap64_small by lia. lia.
Qed.

(** Bit [n] of the reverse complement is the complemented bit of the
    mirrored 2-bit group of the k-mer. *)
Lemma reverse_complement_kmer_bits kmer k : 1 <= k <= 32 ->
  exists rc, reverse_complement_kmer kmer k = Ok rc /\
    0 <= rc < 2 ^ (2 * k) /\
    forall n, 0 <= n < 2 * k ->
      Z.testbit rc n = negb (Z.testbit kmer (2 * k - 2 - n + 2 * (n mod 2))).
Proof.
  intros Hk. rewrite reverse_complement_kmer_cascade, revcomp_shift_count by done.
  unfold shr64. destruct (Z.ltb_spec (64 - 2 * k) 64) as [_|]; [|lia].
  eexists. split; [done|].
  pose proof (reverse_twobits_range (wrap64 (Z.lnot kmer))) as Hr.
  split.
  - rewrite Z.shiftr_div_pow2 by lia. split.
    + apply Z.div_pos; lia.
    + apply Z.div_lt_upper_bound; [lia|].
      rewrite <- Z.pow_add_r by lia.
      replace (64 - 2 * k + 2 * k) with 64 by lia. lia.
  - intros n Hn. rewrite Z.shiftr_spec by lia.
    rewrite reverse_twobits_bits by (apply wrap64_range || lia).
    rewrite wrap64_lnot_bits by (Z.div_mod_to_equations; lia).
    do 2 f_equal. Z.div_mod_to_equations. lia.
Qed.

(** On digits: the reverse complement of a most-significant-first k-mer
    complements every digit and reverses their order. *)
Lemma reverse_complement_kmer_digits ds :
  Forall is_twobit ds -> 1 <= Z.of_nat (length ds) <= 32 ->
  reverse_complement_kmer (digits_le (rev ds)) (Z.of_nat (length ds))
  = Ok (digits_le (map (fun d => 3 - d) ds)).
Proof.
  intros Hds Hk.
  destruct (reverse_complement_kmer_bits (digits_le (rev ds)) _ Hk)
    as (rc & -> & Hrange & Hbits).
  f_equal. apply Z.bits_inj'. intros n Hn.
  assert (Hcomp : Forall is_twobit (map (fun d => 3 - d) ds)).
  { apply List.Forall_map. eapply Forall_impl; [done|].
    unfold is_twobit. intros; simpl; lia. }
  assert (Hrev : Forall is_twobit (rev ds)) by (by apply Forall_rev).
  rewrite (digits_le_bits _ Hcomp) by done.
  assert (Hmod : 0 <= n mod 2 < 2) by (apply Z.mod_pos_bound; lia).
  destruct (Z.lt_ge_cases n (2 * Z.of_nat (length ds))) as [Hlt|Hge].
  - rewrite Hbits by lia.
    rewrite (digits_le_bits _ Hrev) by (Z.div_mod_to_equations; lia).
    assert (Hi : (Z.to_nat (n / 2) < length ds)%nat)
      by (Z.div_mod_to_equations; lia).
    replace (Z.to_nat ((2 * Z.of_nat (length ds) - 2 - n + 2 * (n mod 2)) / 2))
      with (length ds - Datatypes.S (Z.to_nat (n / 2)))%nat
      by (Z.div_mod_to_equations; lia).
    replace ((2 * Z.of_nat (length ds) - 2 - n + 2 * (n mod 2)) mod 2)
      with (n mod 2) by (Z.div_mod_to_equations; lia).
    rewrite rev_nth by lia.
    replace (length ds - Datatypes.S (length ds - Datatypes.S (Z.to_nat (n / 2))))%nat
      with (Z.to_nat (n / 2)) by lia.
    rewrite (nth_indep (map (fun d => 3 - d) ds) 0 (3 - 0))
      by (rewrite length_map; lia).
    rewrite (map_nth (fun d => 3 - d)).
    rewrite complement_twobit_bits; [done| |done].
    eapply Forall_nth; [done|lia].
  - rewrite nth_overflow
      by (rewrite length_map; Z.div_mod_to_equations; lia).
    rewrite Z.testbit_0_l.
    destruct (Z.eq_dec rc 0) as [->|Hne]; [apply Z.testbit_0_l|].
    apply Z.bits_above_log2; [lia|].
    assert (Z.log2 rc < 2 * Z.of_nat (length ds)); [|lia].
    apply Z.log2_lt_pow2; lia.
Qed.

(** ** The two-bit table *)

Lemma twobit_acgt c : is_acgt c = true ->
  is_ascii c = true /\ twobit c = base_code c /\ is_twobit (base_code c).
Proof. unfold is_twobit. destruct c; try discriminate; vm_compute; intuition congruence. Qed.

Lemma twobit_n c : is_n c = true -> is_ascii c = true /\ twobit c = 8.
Proof. destruct c; try discriminate; by vm_compute. Qed.

Lemma twobit_unknown c :
  is_ascii c = true -> is_acgt c = false -> is_n c = false -> twobit c = 4.
Proof. destruct c; try discriminate; reflexivity. Qed.

Lemma iupac_ambiguity_unknown c : is_iupac_ambiguity c = true ->
  is_ascii c = true /\ is_acgt c = false /\ is_n c = false.
Proof. destruct c; try discriminate; by vm_compute. Qed.

Lemma twobit_nonneg c : 0 <= twobit c.
Proof. destruct c; by vm_compute. Qed.

(** ** Windows of valid bases *)

Lemma kmer_value_snoc window c :
  kmer_value (window ++ [c]) = 4 * kmer_value window + base_code c.
Proof. unfold kmer_value. by rewrite fold_left_app. Qed.

Lemma kmer_value_digits window :
  kmer_value window = digits_le (rev (map base_code window)).
Proof.
  induction window as [|c window IH] using rev_ind; [done|].
  rewrite kmer_value_snoc, map_app, rev_app_distr. cbn [map rev app digits_le].
  rewrite IH. lia.
Qed.

Lemma base_codes_twobit window : Forall (fun c => is_acgt c = true) window ->
  Forall is_twobit (map base_code window).
Proof.
  intros Hw. apply List.Forall_map. eapply Forall_impl; [done|].
  intros c Hc. by apply twobit_acgt.
Qed.

Lemma kmer_value_range window : Forall (fun c => is_acgt c = true) window ->
  0 <= kmer_value window < 4 ^ Z.of_nat (length window).
Proof.
  intros Hw. rewrite kmer_value_digits.
  pose proof (digits_le_range (rev (map base_code window))) as H.
  rewrite length_rev, length_map in H. apply H.
  by apply Forall_rev, base_codes_twobit.
Qed.

Lemma lor_shl64_twobit x d : 0 <= x < 2 ^ 62 -> is_twobit d ->
  Z.lor (shl64 x 2) d = 4 * x + d.
Proof.
  intros Hx Hd.
  assert (Hsh : shl64 x 2 = Z.shiftl x 2).
  { unfold shl64. apply wrap64_small.
    rewrite Z.shiftl_mul_pow2 by lia. change (2 ^ 2) with 4. lia. }
  rewrite Hsh. apply Z.bits_inj'. intros n Hn.
  replace (4 * x + d) with (d + 4 * x) by lia.
  rewrite Z.lor_spec, twobit_plus_bits, Z.shiftl_spec by done.
  destruct (Z.ltb_spec n 2).
  - by rewrite Z.testbit_neg_r by lia.
  - assert (Z.testbit d n = false) as ->; [|by rewrite orb_false_r].
    unfold is_twobit in Hd.
    destruct (Z.eq_dec d 0) as [->|Hne]; [apply Z.testbit_0_l|].
    apply Z.bits_above_log2; [lia|].
    assert (Z.log2 d < 2); [|lia]. apply Z.log2_lt_pow2; lia.
Qed.

Lemma lor_twobit a b : is_twobit a -> is_twobit b -> is_twobit (Z.lor a b).
Proof.
  unfold is_twobit. intros Ha Hb.
  assert (Ha' : a = 0 \/ a = 1 \/ a = 2 \/ a = 3) by lia.
  assert (Hb' : b = 0 \/ b = 1 \/ b = 2 \/ b = 3) by lia.
  destruct Ha' as [-> | [-> | [-> | ->]]], Hb' as [-> | [-> | [-> | ->]]];
    vm_compute; intuition congruence.
Qed.

(** The accumulators of a valid window: its packed value, and no flag. *)
Lemma accumulate_valid_window window :
  Forall (fun c => is_acgt c = true) window ->
  Z.of_nat (length window) <= 32 ->
  exists all_nucs,
    fold_left accumulate_base (map twobit window) (0, 0)
    = (kmer_value window, all_nucs) /\ is_twobit all_nucs.
Proof.
  induction window as [|c window IH] using rev_ind; intros Hw Hlen.
  - exists 0. split; [done|]. unfold is_twobit. lia.
  - apply Forall_app in Hw as [Hw Hc]. inversion Hc as [|? ? Hc' _]; subst.
    rewrite length_app in Hlen. simpl in Hlen.
    destruct IH as (all_nucs & Hfold & Hall); [done|lia|].
    destruct (twobit_acgt c Hc') as (_ & Htb & Hcode).
    exists (Z.lor all_nucs (twobit c)).
    rewrite map_app, fold_left_app, Hfold. cbn [map fold_left accumulate_base].
    split; [|rewrite Htb; by apply lor_twobit].
    f_equal. rewrite kmer_value_snoc, Htb.
    apply lor_shl64_twobit; [|done].
    pose proof (kmer_value_range window Hw) as Hr.
    assert (4 ^ Z.of_nat (length window) <= 4 ^ 31)
      by (apply Z.pow_le_mono_r; lia).
    change (2 ^ 62) with (4 ^ 31). lia.
Qed.

(** ** The end of the encoder *)

Lemma canonical_of_accumulators_valid kmer all_nucs k rc :
  is_twobit all_nucs -> reverse_complement_kmer kmer k = Ok rc ->
  canonical_of_accumulators kmer all_nucs k = Ok (to_int64 (Z.min kmer rc)).
Proof.
  unfold is_twobit. intros Hall Hrc. unfold canonical_of_accumulators.
  cbv zeta. rewrite Hrc, bind_Ok, !Z.gtb_ltb.
  destruct (Z.ltb_spec 3 all_nucs); [lia|].
  destruct (Z.ltb_spec kmer rc).
  - by rewrite Z.min_l by lia.
  - by rewrite Z.min_r by lia.
Qed.

Lemma is_acgt_complement c : is_acgt c = true ->
  is_acgt (complement_base c) = true /\
  base_code (complement_base c) = 3 - base_code c /\
  complement_base (complement_base c) = c.
Proof. destruct c; try discriminate; by vm_compute. Qed.

Lemma reverse_complement_valid window :
  Forall (fun c => is_acgt c = true) window ->
  Forall (fun c => is_acgt c = true) (reverse_complement window).
Proof.
  intros Hw. unfold reverse_complement. apply Forall_rev, List.Forall_map.
  eapply Forall_impl; [done|]. intros c Hc. by apply is_acgt_complement.
Qed.

Lemma length_reverse_complement window :
  length (reverse_complement window) = length window.
Proof. unfold reverse_complement. by rewrite length_rev, length_map. Qed.

Lemma reverse_complement_involutive window :
  Forall (fun c => is_acgt c = true) window ->
  reverse_complement (reverse_complement window) = window.
Proof.
  intros Hw. unfold reverse_complement.
  rewrite map_rev, rev_involutive, map_map.
  induction Hw as [|c window Hc Hw IH]; [done|].
  cbn [map]. rewrite IH. f_equal. by apply is_acgt_complement.
Qed.

Lemma kmer_value_reverse_complement window :
  Forall (fun c => is_acgt c = true) window ->
  kmer_value (reverse_complement window)
  = digits_le (map (fun d => 3 - d) (map base_code window)).
Proof.
  intros Hw. rewrite kmer_value_digits. unfold reverse_complement.
  rewrite map_rev, rev_involutive, !map_map. f_equal.
  induction Hw as [|c window Hc Hw IH]; [done|].
  cbn [map]. rewrite IH. f_equal. by apply is_acgt_complement.
Qed.

(** On a window of valid bases the encoder returns, as an [int64_t], the
    smaller of the packed window and the packed reverse complement. *)
Lemma canonical_kmer_valid_window window :
  Forall (fun c => is_acgt c = true) window ->
  1 <= Z.of_nat (length window) <= 32 ->
  sequence_to_canonical_kmer window (Z.of_nat (length window))
  = Ok (to_int64 (Z.min (kmer_value window)
                        (kmer_value (reverse_complement window)))).
Proof.
  intros Hw Hk. rewrite sequence_to_canonical_kmer_scan by done.
  rewrite scan_window_ascii
    by (eapply Forall_impl; [done|]; intros c Hc; by apply twobit_acgt).
  destruct (accumulate_valid_window window Hw) as (all_nucs & -> & Hall);
    [lia|].
  rewrite bind_Ok. cbv beta iota.
  apply canonical_of_accumulators_valid; [done|].
  rewrite kmer_value_reverse_complement, kmer_value_digits by done.
  pose proof (reverse_complement_kmer_digits (map base_code window)) as Hrc.
  rewrite length_map in Hrc. apply Hrc; [|done].
  by apply base_codes_twobit.
Qed.

Lemma reverse_complement_kmer_value window :
  Forall (fun c => is_acgt c = true) window ->
  1 <= Z.of_nat (length window) <= 32 ->
  reverse_complement_kmer (kmer_value window) (Z.of_nat (length window))
  = Ok (kmer_value (reverse_complement window)).
Proof.
  intros Hw Hk.
  rewrite kmer_value_reverse_complement, kmer_value_digits by done.
  pose proof (reverse_complement_kmer_digits (map base_code window)) as Hrc.
  rewrite length_map in Hrc. apply Hrc; [|done].
  by apply base_codes_twobit.
Qed.

(** A canonical k-mer is never one of the two error values. *)
Lemma canonical_not_sentinel kmer k rc :
  0 <= kmer < 2 ^ 64 -> 1 <= k <= 32 ->
  reverse_complement_kmer kmer k = Ok rc ->
  to_int64 (Z.min kmer rc) <> TWOBIT_UNKNOWN_CHAR /\
  to_int64 (Z.min kmer rc) <> TWOBIT_N_CHAR.
Proof.
  intros Hkmer Hk Hrc.
  destruct (reverse_complement_kmer_bits kmer k Hk) as (rc' & Hrc' & Hr & Hbits).
  assert (rc' = rc) as -> by congruence.
  assert (Hpow : 2 ^ (2 * k) <= 2 ^ 64) by (apply Z.pow_le_mono_r; lia).
  assert (Hsmall : 2 ^ 64 - 2 <= Z.min kmer rc ->
                   k = 32 /\ 2 ^ 64 - 2 <= kmer /\ 2 ^ 64 - 2 <= rc).
  { intros Hbig. split; [|lia].
    destruct (Z.eq_dec k 32) as [|Hne]; [done|].
    assert (2 ^ (2 * k) <= 2 ^ 62) by (apply Z.pow_le_mono_r; lia). lia. }
  assert (Hge : to_int64 (Z.min kmer rc) = -1 \/ to_int64 (Z.min kmer rc) = -2 ->
                2 ^ 64 - 2 <= Z.min kmer rc).
  { unfold to_int64. rewrite wrap64_small by lia.
    destruct (Z.ltb_spec (Z.min kmer rc) (2 ^ 63)); lia. }
  assert (Hno : ~ 2 ^ 64 - 2 <= Z.min kmer rc).
  { intros Hbig. destruct (Hsmall Hbig) as (-> & Hk1 & Hr1).
    specialize (Hbits 63 ltac:(lia)).
    change (2 * 32 - 2 - 63 + 2 * (63 mod 2)) with 1 in Hbits.
    assert (Hk' : kmer = 2 ^ 64 - 2 \/ kmer = 2 ^ 64 - 1) by lia.
    assert (Hr' : rc = 2 ^ 64 - 2 \/ rc = 2 ^ 64 - 1) by lia.
    destruct Hk' as [-> | ->], Hr' as [-> | ->]; by vm_compute in Hbits. }
  unfold TWOBIT_UNKNOWN_CHAR, TWOBIT_N_CHAR. split; intros Heq; apply Hno, Hge; auto.
Qed.

(** ** The flags of a window *)

Lemma twobit_flag_bits c : is_ascii c = true ->
  Z.testbit (twobit c) 2 = is_unknown c /\ Z.testbit (twobit c) 3 = is_n c.
Proof. destruct c; try discriminate; by vm_compute. Qed.

Lemma accumulate_all_nucs codes : forall st,
  snd (fold_left accumulate_base codes st) = fold_left Z.lor codes (snd st).
Proof.
  induction codes as [|n codes IH]; intros [kmer all_nucs]; [done|].
  cbn [fold_left]. by rewrite IH.
Qed.

Lemma all_nucs_nonneg window : forall a, 0 <= a ->
  0 <= fold_left Z.lor (map twobit window) a.
Proof.
  induction window as [|c window IH]; intros a Ha; [done|].
  cbn [map fold_left]. apply IH, Z.lor_nonneg. split; [done|].
  apply twobit_nonneg.
Qed.

Lemma all_nucs_flags window : Forall (fun c => is_ascii c = true) window ->
  forall a,
  Z.testbit (fold_left Z.lor (map twobit window) a) 2
    = Z.testbit a 2 || existsb is_unknown window /\
  Z.testbit (fold_left Z.lor (map twobit window) a) 3
    = Z.testbit a 3 || existsb is_n window.
Proof.
  induction 1 as [|c window Hc Hw IH]; intros a.
  - cbn [map fold_left existsb]. by rewrite !orb_false_r.
  - cbn [map fold_left existsb]. destruct (IH (Z.lor a (twobit c))) as [-> ->].
    rewrite !Z.lor_spec. destruct (twobit_flag_bits c Hc) as [-> ->].
    by rewrite !orb_assoc.
Qed.

Lemma testbit2_ge a : 0 <= a -> Z.testbit a 2 = true -> 4 <= a.
Proof.
  intros Ha Hbit. apply Z.testbit_true in Hbit; [|lia].
  change (2 ^ 2) with 4 in Hbit. Z.div_mod_to_equations. lia.
Qed.

Lemma testbit3_ge a : 0 <= a -> Z.testbit a 3 = true -> 8 <= a.
Proof.
  intros Ha Hbit. apply Z.testbit_true in Hbit; [|lia].
  change (2 ^ 3) with 8 in Hbit. Z.div_mod_to_equations. lia.
Qed.

(** [a & 2^j] is zero exactly when bit [j] of [a] is clear. *)
Lemma land_pow2_eqb a j : 0 <= j ->
  (Z.land a (2 ^ j) =? 0) = negb (Z.testbit a j).
Proof.
  intros Hj. destruct (Z.testbit a j) eqn:Hbit; simpl.
  - apply Z.eqb_neq. intros Hz.
    assert (Hb : Z.testbit (Z.land a (2 ^ j)) j = true)
      by (by rewrite Z.land_spec, Hbit, Z.pow2_bits_true).
    by rewrite Hz, Z.testbit_0_l in Hb.
  - apply Z.eqb_eq, Z.bits_inj'. intros n Hn.
    rewrite Z.land_spec, Z.testbit_0_l.
    destruct (Z.eq_dec j n) as [<-|Hne].
    + by rewrite Hbit.
    + by rewrite Z.pow2_bits_false, andb_false_r.
Qed.

Lemma canonical_of_accumulators_unknown kmer all_nucs k :
  0 <= all_nucs -> Z.testbit all_nucs 2 = true ->
  canonical_of_accumulators kmer all_nucs k = Ok TWOBIT_UNKNOWN_CHAR.
Proof.
  intros Ha Hbit. unfold canonical_of_accumulators. cbv zeta. rewrite !Z.gtb_ltb.
  pose proof (testbit2_ge _ Ha Hbit).
  destruct (Z.ltb_spec 3 all_nucs); [|lia].
  change 4 with (2 ^ 2). by rewrite land_pow2_eqb, Hbit by lia.
Qed.

Lemma canonical_of_accumulators_n kmer all_nucs k :
  0 <= all_nucs -> Z.testbit all_nucs 2 = false ->
  Z.testbit all_nucs 3 = true ->
  canonical_of_accumulators kmer all_nucs k = Ok TWOBIT_N_CHAR.
Proof.
  intros Ha Hbit2 Hbit3. unfold canonical_of_accumulators. cbv zeta. rewrite !Z.gtb_ltb.
  pose proof (testbit3_ge _ Ha Hbit3).
  destruct (Z.ltb_spec 3 all_nucs); [|lia].
  change 4 with (2 ^ 2). change 8 with (2 ^ 3).
  by rewrite !land_pow2_eqb, Hbit2, Hbit3 by lia.
Qed.

Lemma no_flag_valid window : Forall (fun c => is_ascii c = true) window ->
  existsb is_unknown window = false -> existsb is_n window = false ->
  Forall (fun c => is_acgt c = true) window.
Proof.
  induction 1 as [|c window Hc Hw IH]; intros Hu Hn; [constructor|].
  cbn [existsb] in Hu, Hn.
  apply orb_false_iff in Hu as [Hu1 Hu2], Hn as [Hn1 Hn2].
  constructor; [|by apply IH].
  unfold is_unknown in Hu1. rewrite Hc, Hn1 in Hu1.
  by destruct (is_acgt c).
Qed.

(** The encoder on a window of 7-bit bytes, by the kind of its bytes. *)
Lemma canonical_kmer_ascii_window window :
  Forall (fun c => is_ascii c = true) window ->
  1 <= Z.of_nat (length window) <= 32 ->
  sequence_to_canonical_kmer window (Z.of_nat (length window))
  = if existsb is_unknown window then Ok TWOBIT_UNKNOWN_CHAR
    else if existsb is_n window then Ok TWOBIT_N_CHAR
    else Ok (to_int64 (Z.min (kmer_value window)
                             (kmer_value (reverse_complement window)))).
Proof.
  intros Hw Hk.
  destruct (existsb is_unknown window) eqn:Hu;
    [|destruct (existsb is_n window) eqn:Hn].
  3: { apply canonical_kmer_valid_window; [|done]. by apply no_flag_valid. }
  all: rewrite sequence_to_canonical_kmer_scan, scan_window_ascii by done.
  all: rewrite bind_Ok.
  all: pose proof (accumulate_all_nucs (map twobit window) (0, 0)) as Hall.
  all: destruct (fold_left accumulate_base _ _) as [kmer all_nucs].
  all: cbn [snd] in Hall; subst all_nucs; cbv beta iota.
  all: destruct (all_nucs_flags window Hw 0) as [H2 H3].
  all: rewrite Hu in H2; rewrite ?Hn in H3.
  - apply canonical_of_accumulators_unknown; [by apply all_nucs_nonneg|done].
  - apply canonical_of_accumulators_n; [by apply all_nucs_nonneg|done..].
Qed.

(** ** The canonical k-mer encoder: results *)

(** C2: on a window of [k] bases A, C, G, T, [1 <= k <= 32], the encoder
    returns the same value for the window and for its reverse complement
    (bases in reverse order, A swapped with T and C with G). *)
Theorem canonical_kmer_reverse_complement (window : list byte)
    (Hw : Forall (fun c => is_acgt c = true) window)
    (Hk : 1 <= Z.of_nat (length window) <= 32) :
  exists v,
    sequence_to_canonical_kmer window (Z.of_nat (length window)) = Ok v /\
    sequence_to_canonical_kmer (reverse_complement window)
      (Z.of_nat (length (reverse_complement window))) = Ok v.
Proof.
  eexists. split; [by apply canonical_kmer_valid_window|].
  rewrite canonical_kmer_valid_window.
  - rewrite reverse_complement_involutive by done. by rewrite Z.min_comm.
  - by apply reverse_complement_valid.
  - by rewrite length_reverse_complement.
Qed.

Lemma canonical_kmer_reverse_complement_witness :
  exists v,
    sequence_to_canonical_kmer (bytes_of_string "GATTACA") 7 = Ok v /\
    sequence_to_canonical_kmer (bytes_of_string "TGTAATC") 7 = Ok v.
Proof.
  apply (canonical_kmer_reverse_complement (bytes_of_string "GATTACA"));
    [repeat constructor | simpl; lia].
Defined.

(** C3, as the code has it: on a window of [k] valid bases the encoder
    returns the smaller of the packed window (most significant base first)
    and the packed reverse complement, converted to [int64_t].  The
    conversion changes nothing below [2^63], so for every [k <= 31] the
    result is the numerical minimum itself; and [ACGT] gives [0x1B]. *)
Theorem canonical_kmer_is_minimum (window : list byte)
    (Hw : Forall (fun c => is_acgt c = true) window)
    (Hk : 1 <= Z.of_nat (length window) <= 32) :
  let forward := kmer_value window in
  let reverse := kmer_value (reverse_complement window) in
  sequence_to_canonical_kmer window (Z.of_nat (length window))
    = Ok (to_int64 (Z.min forward reverse)) /\
  (Z.min forward reverse < 2 ^ 63 ->
   sequence_to_canonical_kmer window (Z.of_nat (length window))
     = Ok (Z.min forward reverse)) /\
  (Z.of_nat (length window) <= 31 -> Z.min forward reverse < 2 ^ 63) /\
  sequence_to_canonical_kmer (bytes_of_string "ACGT") 4 = Ok 0x1B.
Proof.
  cbv zeta.
  pose proof (kmer_value_range window Hw) as Hf.
  pose proof (kmer_value_range _ (reverse_complement_valid _ Hw)) as Hr.
  rewrite length_reverse_complement in Hr.
  split; [by apply canonical_kmer_valid_window|].
  split; [|split].
  - intros Hsmall. rewrite canonical_kmer_valid_window by done.
    f_equal. apply to_int64_small. lia.
  - intros Hk31.
    assert (4 ^ Z.of_nat (length window) <= 4 ^ 31)
      by (apply Z.pow_le_mono_r; lia).
    change (2 ^ 63) with (2 * 4 ^ 31). lia.
  - reflexivity.
Qed.

Lemma canonical_kmer_is_minimum_witness :
  sequence_to_canonical_kmer (bytes_of_string "TTGCA") 5
  = Ok (Z.min (kmer_value (bytes_of_string "TTGCA"))
              (kmer_value (reverse_complement (bytes_of_string "TTGCA")))).
Proof.
  apply (canonical_kmer_is_minimum (bytes_of_string "TTGCA"));
    [repeat constructor | simpl; lia | vm_compute; reflexivity].
Defined.

(** At [k = 32] a minimum with its top bit set comes back negative. *)
Lemma canonical_kmer_is_minimum_counterexample :
  Forall (fun c => is_acgt c = true) window_G_A30_C /\
  length window_G_A30_C = 32%nat /\
  Z.min (kmer_value window_G_A30_C)
        (kmer_value (reverse_complement window_G_A30_C))
    = 0x8000000000000001 /\
  sequence_to_canonical_kmer window_G_A30_C 32 = Ok (-0x7FFFFFFFFFFFFFFF) /\
  sequence_to_canonical_kmer window_G_A30_C 32
    <> Ok (Z.min (kmer_value window_G_A30_C)
                 (kmer_value (reverse_complement window_G_A30_C))).
Proof.
  split; [repeat constructor|].
  split; [reflexivity|].
  split; [reflexivity|].
  split; [reflexivity|].
  vm_compute. discriminate.
Qed.

(** C4, as the code has it: a window of [k] bytes, [1 <= k <= 32], made of
    bases and at least one [N] or [n] gives the AmbiguousN value; the
    IUPAC ambiguity codes other than N are entries 4 of the table, and a
    window of 7-bit bytes that holds one of them gives UnknownChar. *)
Theorem canonical_kmer_ambiguous (window : list byte)
    (Hk : 1 <= Z.of_nat (length window) <= 32) :
  (Forall (fun c => is_acgt c || is_n c = true) window ->
   Exists (fun c => is_n c = true) window ->
   sequence_to_canonical_kmer window (Z.of_nat (length window))
     = Ok TWOBIT_N_CHAR) /\
  (Forall (fun c => is_ascii c = true) window ->
   Exists (fun c => is_iupac_ambiguity c = true) window ->
   sequence_to_canonical_kmer window (Z.of_nat (length window))
     = Ok TWOBIT_UNKNOWN_CHAR).
Proof.
  split.
  - intros Hw Hn.
    assert (Hascii : Forall (fun c => is_ascii c = true) window).
    { eapply Forall_impl; [done|]. intros c Hc.
      apply orb_true_iff in Hc as [Hc|Hc];
        [by apply twobit_acgt | by apply twobit_n]. }
    rewrite canonical_kmer_ascii_window by done.
    assert (Hu : existsb is_unknown window = false).
    { apply not_true_is_false. intros Hex.
      apply existsb_exists in Hex as (c & Hin & Hc).
      rewrite List.Forall_forall in Hw. specialize (Hw c Hin).
      unfold is_unknown in Hc. destruct (is_acgt c), (is_n c);
        by rewrite ?andb_false_r in Hc. }
    assert (Hn' : existsb is_n window = true).
    { apply existsb_exists. by apply List.Exists_exists in Hn. }
    by rewrite Hu, Hn'.
  - intros Hw Hi. rewrite canonical_kmer_ascii_window by done.
    assert (Hu : existsb is_unknown window = true).
    { apply existsb_exists. apply List.Exists_exists in Hi as (c & Hin & Hc).
      exists c. split; [done|].
      destruct (iupac_ambiguity_unknown c Hc) as (Ha & Hb & Hd).
      unfold is_unknown. by rewrite Ha, Hb, Hd. }
    by rewrite Hu.
Qed.

Lemma canonical_kmer_ambiguous_witness :
  sequence_to_canonical_kmer (bytes_of_string "ACnGT") 5 = Ok TWOBIT_N_CHAR.
Proof.
  apply (canonical_kmer_ambiguous (bytes_of_string "ACnGT"));
    [simpl; lia | repeat constructor | do 2 right; by left].
Defined.

(** [ACGR]: bases and one IUPAC ambiguity code, yet UnknownChar. *)
Lemma canonical_kmer_ambiguous_counterexample :
  Forall (fun c => is_acgt c || is_iupac_ambiguity c = true)
    (bytes_of_string "ACGR") /\
  Exists (fun c => is_iupac_ambiguity c = true) (bytes_of_string "ACGR") /\
  sequence_to_canonical_kmer (bytes_of_string "ACGR") 4
    = Ok TWOBIT_UNKNOWN_CHAR /\
  sequence_to_canonical_kmer (bytes_of_string "ACGR") 4 <> Ok TWOBIT_N_CHAR.
Proof.
  split; [repeat constructor|].
  split; [do 3 right; by left|].
  split; [reflexivity|].
  vm_compute. discriminate.
Qed.

(** C5, as the code has it: on a window of [k] 7-bit bytes,
    [1 <= k <= 32], the encoder returns one of its two error values exactly
    when some byte is not A, C, G or T (in either case); and it returns
    UnknownChar whenever some byte is neither a base nor an N, whether or
    not the window also holds an N. *)
Theorem canonical_kmer_error_iff (window : list byte)
    (Hascii : Forall (fun c => is_ascii c = true) window)
    (Hk : 1 <= Z.of_nat (length window) <= 32) :
  let result := sequence_to_canonical_kmer window (Z.of_nat (length window)) in
  ((result = Ok TWOBIT_UNKNOWN_CHAR \/ result = Ok TWOBIT_N_CHAR) <->
   Exists (fun c => is_acgt c = false) window) /\
  (Exists (fun c => is_acgt c = false /\ is_n c = false) window ->
   result = Ok TWOBIT_UNKNOWN_CHAR).
Proof.
  cbv zeta. rewrite canonical_kmer_ascii_window by done.
  split; [split|].
  - intros Herr.
    destruct (existsb is_unknown window) eqn:Hu.
    { apply existsb_exists in Hu as (c & Hin & Hc).
      apply List.Exists_exists. exists c. split; [done|].
      unfold is_unknown in Hc. by destruct (is_acgt c); rewrite ?andb_false_r in Hc. }
    destruct (existsb is_n window) eqn:Hn.
    { apply existsb_exists in Hn as (c & Hin & Hc).
      apply List.Exists_exists. exists c. split; [done|].
      by destruct c. }
    exfalso.
    pose proof (no_flag_valid window Hascii Hu Hn) as Hw.
    pose proof (kmer_value_range window Hw) as Hr.
    assert (4 ^ Z.of_nat (length window) <= 4 ^ 32)
      by (apply Z.pow_le_mono_r; lia).
    destruct (canonical_not_sentinel (kmer_value window)
                (Z.of_nat (length window))
                (kmer_value (reverse_complement window)))
      as [H1 H2]; [change (2 ^ 64) with (4 ^ 32); lia | done | |].
    + by apply reverse_complement_kmer_value.
    + destruct Herr as [Herr|Herr]; congruence.
  - intros Hex. apply List.Exists_exists in Hex as (c & Hin & Hc).
    rewrite List.Forall_forall in Hascii. specialize (Hascii c Hin).
    destruct (existsb is_unknown window) eqn:Hu; [by left|].
    assert (Hn : existsb is_n window = true); [|rewrite Hn; by right].
    apply existsb_exists. exists c. split; [done|].
    destruct (is_n c) eqn:Hcn; [done|]. exfalso.
    assert (Hcu : existsb is_unknown window = true); [|congruence].
    apply existsb_exists. exists c. split; [done|].
    unfold is_unknown. by rewrite Hascii, Hc, Hcn.
  - intros Hex. apply List.Exists_exists in Hex as (c & Hin & Hc1 & Hc2).
    rewrite List.Forall_forall in Hascii. specialize (Hascii c Hin).
    assert (Hu : existsb is_unknown window = true); [|by rewrite Hu].
    apply existsb_exists. exists c. split; [done|].
    unfold is_unknown. by rewrite Hascii, Hc1, Hc2.
Qed.

Lemma canonical_kmer_error_iff_witness :
  sequence_to_canonical_kmer (bytes_of_string "AN@T") 4
  = Ok TWOBIT_UNKNOWN_CHAR.
Proof.
  apply (canonical_kmer_error_iff (bytes_of_string "AN@T"));
    [repeat constructor | simpl; lia | do 2 right; by left].
Defined.

(** A byte above 127 is no base, yet no error value is returned: the
    lookup leaves the table. *)
Lemma canonical_kmer_error_iff_counterexample :
  Exists (fun c => is_acgt c = false) [Byte.x80] /\
  sequence_to_canonical_kmer [Byte.x80] 1 = Fault TableOutOfBounds /\
  ~ ((sequence_to_canonical_kmer [Byte.x80] 1 = Ok TWOBIT_UNKNOWN_CHAR \/
      sequence_to_canonical_kmer [Byte.x80] 1 = Ok TWOBIT_N_CHAR) <->
     Exists (fun c => is_acgt c = false) [Byte.x80]).
Proof.
  split; [by left|]. split; [reflexivity|].
  intros [_ Hback].
  destruct Hback as [H|H]; [by left|vm_compute in H..]; discriminate.
Qed.

(** ** Case *)

Lemma table_get_swapcase c :
  table_get NUCLEOTIDE_TO_TWOBIT (byte_to_Z (swapcase c))
  = table_get NUCLEOTIDE_TO_TWOBIT (byte_to_Z c).
Proof. destruct c; reflexivity. Qed.

Lemma scan_window_case window window' :
  Forall2 case_variant window window' ->
  forall st, scan_window window' st = scan_window window st.
Proof.
  induction 1 as [|c c' window window' Hc Hw IH]; intros st; [done|].
  cbn [scan_window].
  assert (Ht : table_get NUCLEOTIDE_TO_TWOBIT (byte_to_Z c')
               = table_get NUCLEOTIDE_TO_TWOBIT (byte_to_Z c)).
  { destruct Hc as [-> | ->]; [done|apply table_get_swapcase]. }
  rewrite Ht.
  destruct (table_get NUCLEOTIDE_TO_TWOBIT (byte_to_Z c)) as [nuc|f].
  - rewrite !bind_Ok. apply IH.
  - by rewrite !bind_Fault.
Qed.

(** C9: changing the case of any bytes of a window of [k] bytes,
    [1 <= k <= 32], does not change what the encoder returns; the table
    itself has the same entry for a byte and for its other case, be it
    the code of a base or an invalid class. *)
Theorem canonical_kmer_case_insensitive (window window' : list byte)
    (Hcase : Forall2 case_variant window window')
    (Hk : 1 <= Z.of_nat (length window) <= 32) :
  sequence_to_canonical_kmer window' (Z.of_nat (length window'))
    = sequence_to_canonical_kmer window (Z.of_nat (length window)) /\
  (forall c c', case_variant c c' ->
     table_get NUCLEOTIDE_TO_TWOBIT (byte_to_Z c')
     = table_get NUCLEOTIDE_TO_TWOBIT (byte_to_Z c)).
Proof.
  split.
  - pose proof (Forall2_length _ _ _ Hcase) as Hlen.
    rewrite !sequence_to_canonical_kmer_scan by lia.
    rewrite (scan_window_case window window') by done.
    by rewrite Hlen.
  - intros c c' [-> | ->]; [done|apply table_get_swapcase].
Qed.

Lemma canonical_kmer_case_insensitive_witness :
  sequence_to_canonical_kmer (bytes_of_string "aCgTn") 5
  = sequence_to_canonical_kmer (bytes_of_string "ACGTN") 5.
Proof.
  apply (canonical_kmer_case_insensitive (bytes_of_string "ACGTN")
           (bytes_of_string "aCgTn")).
  - repeat constructor; by right.
  - simpl; lia.
Defined.

(** ** Table bounds *)

Lemma canonical_of_accumulators_returns kmer all_nucs k : 1 <= k <= 32 ->
  exists v, canonical_of_accumulators kmer all_nucs k = Ok v.
Proof.
  intros Hk. unfold canonical_of_accumulators. cbv zeta. rewrite !Z.gtb_ltb.
  destruct (reverse_complement_kmer_bits kmer k Hk) as (rc & -> & _).
  rewrite bind_Ok.
  destruct (3 <? all_nucs), (negb (Z.land all_nucs 4 =? 0)),
    (negb (Z.land all_nucs 8 =? 0)), (rc >? kmer); eauto.
Qed.

(** C10: on a window of [k] bytes, [1 <= k <= 32], every lookup
    [NUCLEOTIDE_TO_TWOBIT[sequence[i]]] stays inside the 128-entry table
    exactly when every byte is below 128.  A window of 7-bit bytes makes
    the encoder return; a window with a byte of 128 or more indexes the
    table out of bounds. *)
Theorem table_lookups_in_bounds_iff (window : list byte)
    (Hk : 1 <= Z.of_nat (length window) <= 32) :
  let result := sequence_to_canonical_kmer window (Z.of_nat (length window)) in
  (result <> Fault TableOutOfBounds <->
   Forall (fun c => byte_to_Z c < 128) window) /\
  (Forall (fun c => byte_to_Z c < 128) window -> exists v, result = Ok v) /\
  (Exists (fun c => 128 <= byte_to_Z c) window ->
   result = Fault TableOutOfBounds).
Proof.
  cbv zeta. rewrite sequence_to_canonical_kmer_scan by done.
  assert (Hin : Forall (fun c => byte_to_Z c < 128) window ->
    exists v, (scan_window window (0, 0) ≫= fun '(kmer, all_nucs) =>
       canonical_of_accumulators kmer all_nucs (Z.of_nat (length window)))
      = Ok v).
  { intros Hw. rewrite scan_window_ascii.
    - rewrite bind_Ok. destruct (fold_left _ _ _) as [kmer all_nucs].
      by apply canonical_of_accumulators_returns.
    - eapply Forall_impl; [done|]. intros c Hc. unfold is_ascii.
      by apply Z.ltb_lt. }
  assert (Hout : Exists (fun c => 128 <= byte_to_Z c) window ->
    (scan_window window (0, 0) ≫= fun '(kmer, all_nucs) =>
       canonical_of_accumulators kmer all_nucs (Z.of_nat (length window)))
      = Fault TableOutOfBounds).
  { intros Hw. rewrite scan_window_not_ascii; [done|].
    eapply List.Exists_impl; [|done]. intros c Hc. unfold is_ascii.
    by apply Z.ltb_ge. }
  split; [split|split; [done|done]].
  - intros Hne. destruct (ascii_or_not window) as [Hw|Hw].
    + eapply Forall_impl; [done|]. intros c Hc. by apply Z.ltb_lt.
    + exfalso. apply Hne, Hout.
      eapply List.Exists_impl; [|done]. intros c Hc. by apply Z.ltb_ge.
  - intros Hw. destruct (Hin Hw) as [v ->]. discriminate.
Qed.

Lemma table_lookups_in_bounds_iff_witness :
  exists v, sequence_to_canonical_kmer (bytes_of_string "AC~T") 4 = Ok v.
Proof.
  apply (table_lookups_in_bounds_iff (bytes_of_string "AC~T"));
    [simpl; lia | repeat constructor].
Defined.

(** * Further properties *)

(** ** Memory footprint of the decoders *)

Lemma load_overrun buf i :
  Z.of_nat (length buf) <= i -> load buf i = Fault BufferOverrun.
Proof.
  intros Hi. unfold load. destruct (Z.leb_spec 0 i); [|done].
  by rewrite lookup_ge_None_2 by lia.
Qed.

Lemma store_overrun buf i v :
  Z.of_nat (length buf) <= i -> store buf i v = Fault BufferOverrun.
Proof.
  intros Hi. unfold store.
  destruct (Z.ltb_spec i (Z.of_nat (length buf))); [lia|].
  by rewrite andb_false_r.
Qed.

Lemma store_bytes_overrun buf i vs :
  Z.of_nat (length buf) < i + Z.of_nat (length vs) ->
  store_bytes buf i vs = Fault BufferOverrun.
Proof.
  intros Hi. unfold store_bytes.
  destruct (Z.leb_spec (i + Z.of_nat (length vs)) (Z.of_nat (length buf)));
    [lia|].
  by rewrite andb_false_r.
Qed.

Lemma load_bytes_overrun buf i n :
  Z.of_nat (length buf) < i + Z.of_nat n ->
  load_bytes buf i n = Fault BufferOverrun.
Proof.
  intros Hi. unfold load_bytes.
  destruct (Z.leb_spec (i + Z.of_nat n) (Z.of_nat (length buf))); [lia|].
  by rewrite andb_false_r.
Qed.

(** The quality loop faults when a buffer is shorter than [n]. *)
Lemma decode_bam_qualities_loop_overrun src n :
  forall i dest, 0 <= i < n ->
  ~ (n <= Z.of_nat (length src) /\ n <= Z.of_nat (length dest)) ->
  for_loop i n 1
    (fun i dest =>
       q ← load src i; store dest i (Z_to_byte (byte_to_Z q + 33))) dest
  = Fault BufferOverrun.
Proof.
  intros i. pattern i. apply (Z_upward_ind _ n); clear i; [intros; lia|].
  intros i Hlt IH dest Hi Hshort.
  rewrite for_loop_step by lia.
  destruct (Z.le_gt_cases (Z.of_nat (length src)) i) as [Hs|Hs].
  { by rewrite load_overrun. }
  destruct (lookup_lt_is_Some_2 src (Z.to_nat i)) as [q Hq]; [lia|].
  rewrite (load_Some _ _ q), bind_Ok by (done || lia).
  destruct (Z.le_gt_cases (Z.of_nat (length dest)) i) as [Hd|Hd].
  { by rewrite store_overrun. }
  rewrite store_ok, bind_Ok by lia.
  apply IH; [lia| |rewrite length_insert; lia].
  destruct (Z.eq_dec (i + 1) n); [exfalso|]; lia.
Qed.

Lemma decode_bam_qualities_overrun dest src n : 0 <= n ->
  ~ (n <= Z.of_nat (length src) /\ n <= Z.of_nat (length dest)) ->
  decode_bam_qualities dest src n = Fault BufferOverrun.
Proof.
  intros Hn Hshort. unfold decode_bam_qualities.
  rewrite decode_bam_qualities_loop_overrun; [done|lia|done].
Qed.

Lemma decode_bam_qualities_ok_bounds dest src n dest' : 0 <= n ->
  decode_bam_qualities dest src n = Ok dest' ->
  n <= Z.of_nat (length src) /\ n <= Z.of_nat (length dest).
Proof.
  intros Hn Hok.
  destruct (Z.le_gt_cases n (Z.of_nat (length src))),
    (Z.le_gt_cases n (Z.of_nat (length dest))); [done|..];
    rewrite decode_bam_qualities_overrun in Hok by lia; discriminate.
Qed.

(** X1: [decode_bam_qualities] reads [src[0 .. n)] and writes
    [dest[0 .. n)]: the call succeeds exactly when both buffers hold [n]
    bytes, and otherwise runs off the end of one of them. *)
Theorem decode_bam_qualities_footprint (dest src : list byte) (n : Z)
    (Hn : 0 <= n) :
  ((exists dest', decode_bam_qualities dest src n = Ok dest') <->
   n <= Z.of_nat (length src) /\ n <= Z.of_nat (length dest)) /\
  (~ (n <= Z.of_nat (length src) /\ n <= Z.of_nat (length dest)) ->
   decode_bam_qualities dest src n = Fault BufferOverrun).
Proof.
  split; [split|].
  - intros [dest' Hok]. by eapply decode_bam_qualities_ok_bounds.
  - intros [Hs Hd]. eexists. by apply decode_bam_qualities_closed.
  - by apply decode_bam_qualities_overrun.
Qed.

Lemma decode_bam_qualities_footprint_witness :
  decode_bam_qualities (replicate 2 Byte.x00) (Z_to_byte <$> [1; 2; 3]) 3
  = Fault BufferOverrun.
Proof.
  apply (decode_bam_qualities_footprint (replicate 2 Byte.x00)
           (Z_to_byte <$> [1; 2; 3]) 3); [lia | simpl; lia].
Defined.

(** Subtracting the offset recovers the raw qualities: nothing is lost,
    whatever the input bytes. *)
Lemma phred33_inverse q : Z_to_byte (byte_to_Z (phred33 q) - 33) = q.
Proof. destruct q; reflexivity. Qed.

(** X2: the quality decoding is lossless: subtracting 33 (as a [uint8_t])
    from the first [n] bytes of the output gives back the first [n] bytes of
    the input, also for inputs outside [0,93]. *)
Theorem decode_bam_qualities_lossless (dest src dest' : list byte) (n : Z)
    (Hn : 0 <= n)
    (Hrun : decode_bam_qualities dest src n = Ok dest') :
  (fun d => Z_to_byte (byte_to_Z d - 33)) <$> take (Z.to_nat n) dest'
  = take (Z.to_nat n) src.
Proof.
  destruct (decode_bam_qualities_ok_bounds dest src n dest' Hn Hrun)
    as [Hs Hd].
  rewrite decode_bam_qualities_closed in Hrun by lia.
  injection Hrun as <-.
  rewrite take_app_length' by (rewrite length_fmap, length_take; lia).
  rewrite <- list_fmap_compose.
  rewrite <- (list_fmap_id (take (Z.to_nat n) src)) at 2.
  apply list_fmap_ext. intros i q _. simpl. apply phred33_inverse.
Qed.

Lemma decode_bam_qualities_lossless_witness :
  (fun d => Z_to_byte (byte_to_Z d - 33)) <$>
    take (Z.to_nat 3) (bytes_of_string "!I~" ++ [Byte.x00])
  = take (Z.to_nat 3) (Z_to_byte <$> [0; 40; 93]).
Proof.
  apply (decode_bam_qualities_lossless (replicate 4 Byte.x00)
           (Z_to_byte <$> [0; 40; 93])); [lia | reflexivity].
Defined.

(** The loop of the reference decoder faults when a buffer is too short for
    the whole packed bytes. *)
Lemma decode_bam_sequence_default_loop_overrun src d e h :
  0 <= d -> 0 <= e ->
  forall i mem, 0 <= i < h ->
  ~ (e + h <= Z.of_nat (length src) /\ d + 2 * h <= Z.of_nat (length mem)) ->
  for_loop i h 1
    (fun i mem =>
       b ← load src (e + i);
       two ← table_get_bytes code2base (byte_to_Z b * 2) 2;
       store_bytes mem (d + i * 2) two) mem
  = Fault BufferOverrun.
Proof.
  intros Hd He i. pattern i. apply (Z_upward_ind _ h); clear i; [intros; lia|].
  intros i Hlt IH mem Hi Hshort.
  rewrite for_loop_step by lia.
  destruct (Z.le_gt_cases (Z.of_nat (length src)) (e + i)) as [Hs|Hs].
  { by rewrite load_overrun. }
  destruct (lookup_lt_is_Some_2 src (Z.to_nat (e + i))) as [b Hb]; [lia|].
  rewrite (load_Some _ _ b), bind_Ok by (done || lia).
  rewrite code2base_decode_byte, bind_Ok.
  destruct (Z.lt_ge_cases (Z.of_nat (length mem)) (d + i * 2 + 2)) as [Hm|Hm].
  { by rewrite store_bytes_overrun by (simpl; lia). }
  rewrite store_bytes_ok, bind_Ok by (simpl; lia).
  apply IH; [lia| |rewrite length_inserts; lia].
  destruct (Z.eq_dec (i + 1) h); [exfalso|]; lia.
Qed.

Lemma decode_bam_sequence_default_zero mem d src e :
  decode_bam_sequence_default mem d src e 0 = Ok mem.
Proof.
  unfold decode_bam_sequence_default. cbv zeta.
  change (0 / 2) with 0. by rewrite for_loop_done.
Qed.

(** With a buffer too short for [n >= 1] bases, the reference decoder runs
    off its end. *)
Lemma decode_bam_sequence_default_overrun mem d src e n :
  0 <= d -> 0 <= e -> 1 <= n ->
  ~ (d + n <= Z.of_nat (length mem) /\
     e + (n + 1) / 2 <= Z.of_nat (length src)) ->
  decode_bam_sequence_default mem d src e n = Fault BufferOverrun.
Proof.
  intros Hd He Hn Hshort. unfold decode_bam_sequence_default. cbv zeta.
  assert (Hmod : 0 <= n mod 2 < 2) by (apply Z.mod_pos_bound; lia).
  assert (Hodd : n = 2 * (n / 2) + n mod 2) by (Z.div_mod_to_equations; lia).
  assert (Hhalf : (n + 1) / 2 = n / 2 + n mod 2)
    by (Z.div_mod_to_equations; lia).
  destruct (Z.eq_dec (n / 2) 0) as [Hz|Hpos].
  { assert (n = 1) as -> by lia.
    change (1 / 2) with 0. rewrite for_loop_done, bind_Ok by lia.
    change (negb (Z.land 1 1 =? 0)) with true. cbv iota.
    rewrite Z.add_0_r. change (1 - 1) with 0. rewrite Z.add_0_r.
    change ((1 + 1) / 2) with 1 in Hshort.
    destruct (Z.le_gt_cases (Z.of_nat (length src)) e) as [Hs'|Hs'].
    { by rewrite load_overrun. }
    destruct (lookup_lt_is_Some_2 src (Z.to_nat e)) as [b Hb]; [lia|].
    rewrite (load_Some _ _ b), bind_Ok by (done || lia).
    rewrite nuc_lookup_high_nibble, bind_Ok.
    apply store_overrun. lia. }
  destruct (Z.le_gt_cases (e + n / 2) (Z.of_nat (length src))) as [Hs|Hs];
    [destruct (Z.le_gt_cases (d + 2 * (n / 2)) (Z.of_nat (length mem)))
       as [Hm|Hm]|].
  - rewrite (decode_bam_sequence_default_loop src d e (n / 2)) by lia.
    rewrite bind_Ok.
    change (Z.land n 1) with (Z.land n (Z.ones 1)).
    rewrite Z.land_ones by lia. change (2 ^ 1) with 2.
    destruct (Z.eqb_spec (n mod 2) 0) as [H0|H1]; cbn [negb]; [exfalso; lia|].
    destruct (Z.le_gt_cases (Z.of_nat (length src)) (e + n / 2)) as [Hs'|Hs'].
    { by rewrite load_overrun. }
    destruct (lookup_lt_is_Some_2 src (Z.to_nat (e + n / 2))) as [b Hb]; [lia|].
    rewrite (load_Some _ _ b), bind_Ok by (done || lia).
    rewrite nuc_lookup_high_nibble, bind_Ok.
    apply store_overrun.
    rewrite !length_app, length_take, length_decode_bytes, length_take,
      !length_drop.
    lia.
  - rewrite decode_bam_sequence_default_loop_overrun; [done..|lia|lia].
  - rewrite decode_bam_sequence_default_loop_overrun; [done..|lia|lia].
Qed.

(** X3: the reference decoder touches [mem[dest .. dest+n)] and the
    [ceil(n/2)] packed bytes at [encoded_sequence], and nothing else: for
    [n >= 1] it succeeds exactly when both ranges lie inside their buffers
    and otherwise overruns one; for [n = 0] it dereferences nothing and
    returns the memory unchanged wherever the pointers are. *)
Theorem decode_bam_sequence_default_footprint
    (mem src : list byte) (dest encoded_sequence n : Z)
    (Hdest : 0 <= dest) (Henc : 0 <= encoded_sequence) (Hn : 1 <= n) :
  let fits :=
    dest + n <= Z.of_nat (length mem) /\
    encoded_sequence + (n + 1) / 2 <= Z.of_nat (length src) in
  ((exists out,
      decode_bam_sequence_default mem dest src encoded_sequence n = Ok out)
   <-> fits) /\
  (~ fits ->
   decode_bam_sequence_default mem dest src encoded_sequence n
   = Fault BufferOverrun) /\
  decode_bam_sequence_default mem dest src encoded_sequence 0 = Ok mem.
Proof.
  cbv zeta. split; [split|split].
  - intros [out Hok].
    destruct (Z.le_gt_cases (dest + n) (Z.of_nat (length mem))),
      (Z.le_gt_cases (encoded_sequence + (n + 1) / 2) (Z.of_nat (length src)));
      [done|..];
      rewrite decode_bam_sequence_default_overrun in Hok by lia; discriminate.
  - intros [Hm Hs]. eexists.
    apply decode_bam_sequence_default_closed; lia.
  - by apply decode_bam_sequence_default_overrun.
  - apply decode_bam_sequence_default_zero.
Qed.

Lemma decode_bam_sequence_default_footprint_witness :
  decode_bam_sequence_default (replicate 4 Byte.x00) 0
    (Z_to_byte <$> [0x12; 0x48]) 0 5 = Fault BufferOverrun.
Proof.
  apply (decode_bam_sequence_default_footprint (replicate 4 Byte.x00)
           (Z_to_byte <$> [0x12; 0x48]) 0 0 5); [lia | lia | lia |].
  simpl. lia.
Defined.

(** The vector loop on buffers that are too short, for any body that either
    decodes its block in place or overruns a buffer. *)
Section VectorLoopOverrun.
Variables (src : list byte) (dest length : Z).
Variable body : Z -> Z * list byte -> result (Z * list byte).
Hypothesis body_cases : forall c e mem,
  (exists mem', body c (e, mem) = Ok (e + 16, mem') /\
                List.length mem' = List.length mem) \/
  body c (e, mem) = Fault BufferOverrun.

Lemma vector_loop_overrun : forall c e mem,
  0 <= c < dest + length -> 0 <= e ->
  ~ (dest + length <= Z.of_nat (List.length mem) /\
     e + (dest + length - c + 1) / 2 <= Z.of_nat (List.length src)) ->
  ('(dest_cursor, (encoded_cursor, mem)) ←
     for_loop c (dest + length - 32) 32 body (e, mem);
   decode_bam_sequence_default mem dest_cursor src encoded_cursor
     (dest + length - dest_cursor))
  = Fault BufferOverrun.
Proof.
  intros c. pattern c. apply (Z_upward_ind _ (dest + length - 32)); clear c.
  - intros c Hc e mem Hcr He Hshort.
    rewrite for_loop_done, bind_Ok by lia.
    apply decode_bam_sequence_default_overrun; [lia..|].
    intros [Hm Hs]. apply Hshort. split; lia.
  - intros c Hc IH e mem Hcr He Hshort.
    rewrite for_loop_step by lia.
    destruct (body_cases c e mem) as [(mem' & -> & Hlen)| ->]; [|done].
    rewrite bind_Ok. apply IH; [lia..|].
    rewrite Hlen. intros [Hm Hs]. apply Hshort. split; [done|].
    Z.div_mod_to_equations. lia.
Qed.
End VectorLoopOverrun.

Lemma load_bytes_cases buf i n :
  load_bytes buf i n = Ok (take n (drop (Z.to_nat i) buf)) \/
  load_bytes buf i n = Fault BufferOverrun.
Proof. unfold load_bytes. destruct (_ && _); auto. Qed.

Lemma store_bytes_cases buf i vs :
  (exists buf', store_bytes buf i vs = Ok buf' /\ length buf' = length buf) \/
  store_bytes buf i vs = Fault BufferOverrun.
Proof.
  unfold store_bytes. destruct (_ && _); [left|by right].
  eexists. split; [done|]. apply length_inserts.
Qed.

(** With buffers too short for [n >= 1] bases the SSSE3 decoder overruns
    one, as the reference decoder does. *)
Lemma decode_bam_sequence_ssse3_overrun mem d src e n :
  0 <= d -> 0 <= e -> 1 <= n ->
  ~ (d + n <= Z.of_nat (length mem) /\
     e + (n + 1) / 2 <= Z.of_nat (length src)) ->
  decode_bam_sequence_ssse3 mem d src e n = Fault BufferOverrun.
Proof.
  intros Hd He Hn Hshort. unfold decode_bam_sequence_ssse3.
  cbv zeta.
  change (_mm_lddqu_si128 nuc_lookup 0)
    with (Ok (map byte_to_Z (take 16 (drop (Z.to_nat 0) nuc_lookup)))).
  rewrite bind_Ok.
  change (2 * sizeof_m128i) with 32.
  apply vector_loop_overrun; [|lia|lia|].
  - clear. intros c e mem.
    unfold _mm_lddqu_si128, _mm_storeu_si128.
    destruct (load_bytes_cases src e 16) as [-> | ->]; [|by right].
    rewrite !bind_Ok.
    match goal with
    | |- context [store_bytes mem c ?vs] =>
        destruct (store_bytes_cases mem c vs) as [(mem1 & -> & Hlen1)| ->];
        [|by right]
    end.
    rewrite bind_Ok.
    match goal with
    | |- context [store_bytes mem1 (c + 16) ?vs] =>
        destruct (store_bytes_cases mem1 (c + 16) vs)
          as [(mem2 & -> & Hlen2)| ->]; [|by right]
    end.
    rewrite bind_Ok. left. exists mem2. split; [done|congruence].
  - replace (d + n - d + 1) with (n + 1) by lia. done.
Qed.

Lemma decode_bam_sequence_ssse3_zero mem d src e :
  decode_bam_sequence_ssse3 mem d src e 0 = Ok mem.
Proof.
  unfold decode_bam_sequence_ssse3. cbv zeta.
  change (_mm_lddqu_si128 nuc_lookup 0)
    with (Ok (map byte_to_Z (take 16 (drop (Z.to_nat 0) nuc_lookup)))).
  rewrite bind_Ok. change (2 * sizeof_m128i) with 32.
  rewrite for_loop_done, bind_Ok by lia.
  replace (d + 0 - d) with 0 by lia.
  apply decode_bam_sequence_default_zero.
Qed.

(** The two decoders agree on every call, successful or not. *)
Lemma decode_bam_sequence_ssse3_default mem d src e n :
  0 <= d -> 0 <= e -> 0 <= n ->
  decode_bam_sequence_ssse3 mem d src e n
  = decode_bam_sequence_default mem d src e n.
Proof.
  intros Hd He Hn.
  destruct (Z.eq_dec n 0) as [->|Hpos].
  { by rewrite decode_bam_sequence_ssse3_zero,
      decode_bam_sequence_default_zero. }
  destruct (Z.le_gt_cases (d + n) (Z.of_nat (length mem))) as [Hm|Hm];
    [destruct (Z.le_gt_cases (e + (n + 1) / 2) (Z.of_nat (length src)))
       as [Hs|Hs]|].
  - by rewrite decode_bam_sequence_ssse3_closed,
      decode_bam_sequence_default_closed.
  - by rewrite decode_bam_sequence_ssse3_overrun,
      decode_bam_sequence_default_overrun by lia.
  - by rewrite decode_bam_sequence_ssse3_overrun,
      decode_bam_sequence_default_overrun by lia.
Qed.

(** X4: the SSSE3 decoder never touches memory the reference decoder would
    not: whatever the buffers and the pointers, the two return the same
    result, the same buffer when the call fits and the same overrun when it
    does not; so a 16-byte vector load never reads past the packed bases. *)
Theorem decode_bam_sequence_ssse3_same_footprint
    (mem src : list byte) (dest encoded_sequence n : Z)
    (Hdest : 0 <= dest) (Henc : 0 <= encoded_sequence) (Hn : 0 <= n) :
  decode_bam_sequence_ssse3 mem dest src encoded_sequence n
    = decode_bam_sequence_default mem dest src encoded_sequence n /\
  ((exists out,
      decode_bam_sequence_ssse3 mem dest src encoded_sequence n = Ok out)
   <-> n = 0 \/
       (dest + n <= Z.of_nat (length mem) /\
        encoded_sequence + (n + 1) / 2 <= Z.of_nat (length src))).
Proof.
  split; [by apply decode_bam_sequence_ssse3_default|].
  destruct (Z.eq_dec n 0) as [->|Hpos].
  { rewrite decode_bam_sequence_ssse3_zero. split; eauto. }
  split.
  - intros [out Hok]. right.
    destruct (Z.le_gt_cases (dest + n) (Z.of_nat (length mem))),
      (Z.le_gt_cases (encoded_sequence + (n + 1) / 2) (Z.of_nat (length src)));
      [done|..];
      rewrite decode_bam_sequence_ssse3_overrun in Hok by lia; discriminate.
  - intros [?|[Hm Hs]]; [lia|]. eexists.
    by apply decode_bam_sequence_ssse3_closed.
Qed.

Lemma decode_bam_sequence_ssse3_same_footprint_witness :
  decode_bam_sequence_ssse3 (replicate 70 Byte.x00) 0
    (Z_to_byte <$> seqZ 0 30) 0 66
  = decode_bam_sequence_default (replicate 70 Byte.x00) 0
      (Z_to_byte <$> seqZ 0 30) 0 66.
Proof.
  apply (decode_bam_sequence_ssse3_same_footprint (replicate 70 Byte.x00)
           (Z_to_byte <$> seqZ 0 30) 0 0 66); lia.
Defined.

Lemma decode_bam_sequence_default_ok_bounds mem d src e n out :
  0 <= d -> 0 <= e -> 1 <= n ->
  decode_bam_sequence_default mem d src e n = Ok out ->
  d + n <= Z.of_nat (length mem) /\
  e + (n + 1) / 2 <= Z.of_nat (length src).
Proof.
  intros Hd He Hn Hok.
  destruct (Z.le_gt_cases (d + n) (Z.of_nat (length mem))),
    (Z.le_gt_cases (e + (n + 1) / 2) (Z.of_nat (length src))); [done|..];
    rewrite decode_bam_sequence_default_overrun in Hok by lia; discriminate.
Qed.

(** The sixteen symbols of the alphabet are distinct. *)
Lemma base_of_code_inj c1 c2 : 0 <= c1 < 16 -> 0 <= c2 < 16 ->
  base_of_code c1 = base_of_code c2 -> c1 = c2.
Proof.
  intros H1 H2.
  assert (Hn1 : c1 = Z.of_nat (Z.to_nat c1)) by lia.
  assert (Hn2 : c2 = Z.of_nat (Z.to_nat c2)) by lia.
  assert (Hl1 : (Z.to_nat c1 < 16)%nat) by lia.
  assert (Hl2 : (Z.to_nat c2 < 16)%nat) by lia.
  revert Hn1 Hn2 Hl1 Hl2.
  generalize (Z.to_nat c1) (Z.to_nat c2). intros n1 n2 -> -> Hl1 Hl2 Heq.
  do 16 (destruct n1 as [|n1];
    [ do 16 (destruct n2 as [|n2];
        [ first [reflexivity | vm_compute in Heq; discriminate] | ]);
      lia
    | ]).
  lia.
Qed.

(** X5: decoding loses nothing: when two packed buffers decode to the same
    [n] bases, their first [n] 4-bit codes are the same (the sixteen symbols
    of the alphabet are distinct). *)
Theorem decode_bam_sequence_default_injective
    (mem1 mem2 src1 src2 out1 out2 : list byte) (n : Z)
    (Hn : 0 <= n)
    (Hrun1 : decode_bam_sequence_default mem1 0 src1 0 n = Ok out1)
    (Hrun2 : decode_bam_sequence_default mem2 0 src2 0 n = Ok out2)
    (Hsame : take (Z.to_nat n) out1 = take (Z.to_nat n) out2) :
  forall i : nat, Z.of_nat i < n ->
    exists c, code_at src1 i = Some c /\ code_at src2 i = Some c.
Proof.
  intros i Hi.
  assert (Hn1 : 1 <= n) by lia.
  destruct (decode_bam_sequence_default_ok_bounds mem1 0 src1 0 n out1
              (Z.le_refl 0) (Z.le_refl 0) Hn1 Hrun1) as [Hm1 Hs1].
  destruct (decode_bam_sequence_default_ok_bounds mem2 0 src2 0 n out2
              (Z.le_refl 0) (Z.le_refl 0) Hn1 Hrun2) as [Hm2 Hs2].
  rewrite decode_bam_sequence_default_closed in Hrun1, Hrun2 by lia.
  injection Hrun1 as <-. injection Hrun2 as <-.
  change (Z.to_nat 0) with 0%nat in Hsame. cbn [take app] in Hsame.
  rewrite !drop_0 in Hsame.
  assert (Hlen : forall src, (n + 1) / 2 <= Z.of_nat (length src) ->
    length (take (Z.to_nat n) (decode_bytes src)) = Z.to_nat n).
  { intros src Hs. rewrite length_take, length_decode_bytes.
    Z.div_mod_to_equations. lia. }
  rewrite !take_app_length' in Hsame by (rewrite Hlen; lia).
  apply (f_equal (fun l => l !! i)) in Hsame.
  rewrite !lookup_take_lt, !lookup_decode_bytes in Hsame by lia.
  assert (Hi2 : Z.of_nat (i / 2) = Z.of_nat i / 2) by apply Nat2Z.inj_div.
  destruct (lookup_lt_is_Some_2 src1 (i / 2)%nat) as [b1 Hb1];
    [Z.div_mod_to_equations; lia|].
  destruct (lookup_lt_is_Some_2 src2 (i / 2)%nat) as [b2 Hb2];
    [Z.div_mod_to_equations; lia|].
  unfold code_at. rewrite Hb1, Hb2 in *. simpl in *.
  injection Hsame as Hsame.
  eexists. split; [done|]. f_equal. symmetry.
  destruct (Nat.even i);
    apply base_of_code_inj; auto using high_nibble_range, low_nibble_range.
Qed.

Lemma decode_bam_sequence_default_injective_witness :
  exists c, code_at (Z_to_byte <$> [0x12; 0x4F]) 2 = Some c /\
            code_at (Z_to_byte <$> [0x12; 0x40]) 2 = Some c.
Proof.
  apply (decode_bam_sequence_default_injective
           (replicate 3 Byte.x00) (replicate 4 Byte.x00)
           (Z_to_byte <$> [0x12; 0x4F]) (Z_to_byte <$> [0x12; 0x40])
           (bytes_of_string "ACG")
           (bytes_of_string "ACG" ++ [Byte.x00]) 3);
    [lia | reflexivity | reflexivity | reflexivity | simpl; lia].
Defined.

(** ** The dispatcher *)

Lemma resolved_decoder_bound cpu pointer :
  resolved_decoder cpu pointer <> dispatch_fn /\
  resolved_decoder cpu (resolved_decoder cpu pointer)
  = resolved_decoder cpu pointer.
Proof. by destruct pointer, cpu. Qed.

(** One call through the pointer: the pointer is left on the resolved
    decoder, and the memory is what the reference decoder makes of it. *)
Lemma decode_bam_sequence_call cpu pointer mem d src e n :
  0 <= d -> 0 <= e -> 0 <= n ->
  decode_bam_sequence cpu pointer mem d src e n
  = (resolved_decoder cpu pointer, decode_bam_sequence_default mem d src e n).
Proof.
  intros Hd He Hn. unfold decode_bam_sequence.
  destruct pointer, cpu; cbn [call_decode_bam_sequence resolved_decoder];
    by rewrite ?decode_bam_sequence_ssse3_default.
Qed.

Lemma decode_bam_sequence_pointer cpu pointer mem d src e n :
  fst (decode_bam_sequence cpu pointer mem d src e n)
  = resolved_decoder cpu pointer.
Proof. by destruct pointer, cpu. Qed.

(** X6: whatever the CPU supports and whatever the pointer holds, a run of
    calls through [decode_bam_sequence] leaves the memory exactly as the
    same calls to the reference decoder do (or stops with the same fault):
    the dispatcher affects which code runs, never the output. *)
Theorem decode_calls_reference (cpu_supports_ssse3 : bool)
    (pointer : decoder) (calls : list decode_call) (mem : list byte)
    (Hwf : Forall call_wf calls) :
  snd (decode_calls cpu_supports_ssse3 pointer calls mem)
  = reference_calls calls mem.
Proof.
  revert pointer mem.
  induction Hwf as [|c calls (Hd & He & Hn) Hwf IH]; intros pointer mem;
    [done|].
  cbn [decode_calls reference_calls].
  rewrite decode_bam_sequence_call by done.
  destruct (decode_bam_sequence_default _ _ _ _ _) as [mem'|f].
  - rewrite bind_Ok. apply IH.
  - done.
Qed.

Lemma decode_calls_reference_witness :
  snd (decode_calls true decode_bam_sequence_init
         [ {| call_dest := 0; call_src := Z_to_byte <$> [0x12; 0x48];
              call_encoded_sequence := 0; call_length := 3 |};
           {| call_dest := 3; call_src := Z_to_byte <$> [0x84; 0x21];
              call_encoded_sequence := 1; call_length := 2 |} ]
         (replicate 5 Byte.x00))
  = Ok (bytes_of_string "ACGCA").
Proof.
  rewrite decode_calls_reference; [reflexivity|].
  repeat constructor; simpl; lia.
Defined.

(** X7: the pointer is bound by the first call and never changes again:
    after one or more calls it holds the decoder the CPU probe selects for
    the pointer's starting value, which is never the dispatcher; and a
    pointer that is already bound stays what it is, whatever the probe
    would answer. *)
Theorem decode_calls_pointer (cpu_supports_ssse3 : bool)
    (pointer : decoder) (calls : list decode_call) (mem : list byte) :
  let pointer' := fst (decode_calls cpu_supports_ssse3 pointer calls mem) in
  (calls <> [] -> pointer' = resolved_decoder cpu_supports_ssse3 pointer /\
                  pointer' <> dispatch_fn) /\
  (pointer <> dispatch_fn -> pointer' = pointer) /\
  (calls <> [] -> pointer = decode_bam_sequence_init ->
   pointer' = if cpu_supports_ssse3 then ssse3_fn else default_fn).
Proof.
  cbv zeta.
  assert (Hfst : calls <> [] ->
    fst (decode_calls cpu_supports_ssse3 pointer calls mem)
    = resolved_decoder cpu_supports_ssse3 pointer).
  { revert pointer mem. induction calls as [|c calls IH];
      intros pointer mem Hne; [done|].
    cbn [decode_calls].
    pose proof (decode_bam_sequence_pointer cpu_supports_ssse3 pointer mem
      (call_dest c) (call_src c) (call_encoded_sequence c) (call_length c))
      as Hp.
    destruct (decode_bam_sequence _ _ _ _ _ _ _) as [pointer' [mem'|f]];
      cbn [fst] in Hp; subst pointer'; [|done].
    destruct calls as [|c' calls]; [done|].
    rewrite IH by done. apply resolved_decoder_bound. }
  split; [|split].
  - intros Hne. rewrite Hfst by done.
    split; [done|apply resolved_decoder_bound].
  - intros Hbound. destruct calls as [|c calls]; [done|].
    rewrite Hfst by done. by destruct pointer.
  - intros Hne ->. by rewrite Hfst.
Qed.

Lemma decode_calls_pointer_witness :
  fst (decode_calls false ssse3_fn
         [ {| call_dest := 0; call_src := Z_to_byte <$> [0x12];
              call_encoded_sequence := 0; call_length := 2 |} ]
         (replicate 2 Byte.x00))
  = ssse3_fn.
Proof.
  apply (decode_calls_pointer false ssse3_fn). discriminate.
Defined.

(** ** The reverse complement on its own *)

Lemma testbit_above_pow2 x m n :
  0 <= x < 2 ^ m -> 0 <= m <= n -> Z.testbit x n = false.
Proof.
  intros Hx Hn. destruct (Z.eq_dec x 0) as [->|Hne]; [apply Z.testbit_0_l|].
  apply Z.bits_above_log2; [lia|].
  assert (Z.log2 x < m); [|lia]. apply Z.log2_lt_pow2; lia.
Qed.

Lemma pow4_pow2 k : 0 <= k -> 4 ^ k = 2 ^ (2 * k).
Proof. intros Hk. by rewrite Z.pow_mul_r by lia. Qed.

Lemma reverse_complement_kmer_undefined kmer k :
  0 <= k < 2 ^ 63 -> ~ 1 <= k <= 32 ->
  reverse_complement_kmer kmer k = Fault ShiftOutOfRange.
Proof.
  intros Hk Hout. rewrite reverse_complement_kmer_cascade.
  rewrite (wrap64_small (k * 2)) by lia.
  unfold shr64, wrap64.
  destruct (Z.ltb_spec ((64 - k * 2) mod 2 ^ 64) 64) as [Hlt|]; [|done].
  exfalso. destruct (Z.eq_dec k 0) as [->|Hne].
  - by vm_compute in Hlt.
  - replace ((64 - k * 2) mod 2 ^ 64) with (64 - k * 2 + 2 ^ 64) in Hlt;
      [lia|].
    apply Z.mod_unique with (q := -1); lia.
Qed.

(** X8: [reverse_complement_kmer] is defined exactly for [k] in [1,32]:
    there it returns a value of at most [k] two-bit groups (below [4^k],
    with no residual shift at [k = 32]); for [k = 0] or [k > 32] the shift
    count [64 - 2k] is not below 64, which C leaves undefined. *)
Theorem reverse_complement_kmer_defined (kmer k : Z)
    (Hk : 0 <= k < 2 ^ 63) :
  ((exists rc, reverse_complement_kmer kmer k = Ok rc) <-> 1 <= k <= 32) /\
  (forall rc, reverse_complement_kmer kmer k = Ok rc -> 0 <= rc < 4 ^ k) /\
  (~ 1 <= k <= 32 -> reverse_complement_kmer kmer k = Fault ShiftOutOfRange).
Proof.
  assert (Hin : 1 <= k <= 32 ->
    exists rc, reverse_complement_kmer kmer k = Ok rc /\ 0 <= rc < 4 ^ k).
  { intros Hr.
    destruct (reverse_complement_kmer_bits kmer k Hr) as (rc & Hrc & Hrange & _).
    exists rc. by rewrite pow4_pow2 by lia. }
  split; [split|split].
  - intros [rc Hrc].
    destruct (Z.le_gt_cases 1 k), (Z.le_gt_cases k 32); [done|..];
      rewrite reverse_complement_kmer_undefined in Hrc by lia; discriminate.
  - intros Hr. destruct (Hin Hr) as (rc & Hrc & _). eauto.
  - intros rc Hrc.
    destruct (Z.le_gt_cases 1 k), (Z.le_gt_cases k 32);
      [|rewrite reverse_complement_kmer_undefined in Hrc by lia;
        discriminate ..].
    destruct (Hin ltac:(lia)) as (rc' & Hrc' & Hrange). congruence.
  - by apply reverse_complement_kmer_undefined.
Qed.

Lemma reverse_complement_kmer_defined_witness :
  reverse_complement_kmer 27 33 = Fault ShiftOutOfRange.
Proof.
  apply (reverse_complement_kmer_defined 27 33); lia.
Defined.

(** X9: the reverse complement is an involution on k-mers: for [k] in
    [1,32] and a k-mer below [4^k], taking the reverse complement twice
    gives the k-mer back. *)
Theorem reverse_complement_kmer_involutive (kmer k rc : Z)
    (Hk : 1 <= k <= 32) (Hkmer : 0 <= kmer < 4 ^ k)
    (Hrc : reverse_complement_kmer kmer k = Ok rc) :
  reverse_complement_kmer rc k = Ok kmer.
Proof.
  destruct (reverse_complement_kmer_bits kmer k Hk) as (rc1 & Hrc1 & Hr1 & Hb1).
  assert (rc1 = rc) as -> by congruence.
  destruct (reverse_complement_kmer_bits rc k Hk) as (rc2 & -> & Hr2 & Hb2).
  rewrite pow4_pow2 in Hkmer by lia.
  f_equal. apply Z.bits_inj'. intros n Hn.
  destruct (Z.lt_ge_cases n (2 * k)) as [Hlt|Hge].
  - assert (Hmod : 0 <= n mod 2 < 2) by (apply Z.mod_pos_bound; lia).
    rewrite Hb2 by lia.
    rewrite Hb1 by (Z.div_mod_to_equations; lia).
    rewrite negb_involutive. f_equal.
    Z.div_mod_to_equations. lia.
  - rewrite (testbit_above_pow2 rc2 (2 * k)) by lia.
    by rewrite (testbit_above_pow2 kmer (2 * k)) by lia.
Qed.

Lemma reverse_complement_kmer_involutive_witness :
  reverse_complement_kmer 0x3A 3 = Ok 0x14.
Proof.
  apply (reverse_complement_kmer_involutive 0x14 3 0x3A);
    [lia | simpl; lia | reflexivity].
Defined.

(** X10: as the comment in the source says, an odd [k] leaves no
    ambiguity: for odd [k] the reverse complement differs from the k-mer
    (the middle base would have to be its own complement), so no window of
    odd length packs to the same value as its reverse complement. *)
Theorem reverse_complement_kmer_odd (kmer k rc : Z)
    (Hk : 1 <= k <= 32) (Hodd : k mod 2 = 1)
    (Hrc : reverse_complement_kmer kmer k = Ok rc) :
  rc <> kmer /\
  (forall window, Forall (fun c => is_acgt c = true) window ->
     Z.of_nat (length window) = k ->
     kmer_value (reverse_complement window) <> kmer_value window).
Proof.
  assert (Hne : forall kmer rc,
    reverse_complement_kmer kmer k = Ok rc -> rc <> kmer).
  { clear kmer rc Hrc. intros kmer rc Hrc ->.
    destruct (reverse_complement_kmer_bits kmer k Hk) as (rc & Hrc' & _ & Hb).
    assert (rc = kmer) as -> by congruence.
    specialize (Hb (k - 1) ltac:(lia)).
    replace (2 * k - 2 - (k - 1) + 2 * ((k - 1) mod 2)) with (k - 1) in Hb
      by (Z.div_mod_to_equations; lia).
    by destruct (Z.testbit kmer (k - 1)). }
  split; [by apply Hne|].
  intros window Hw Hlen. apply Hne. rewrite <- Hlen.
  apply reverse_complement_kmer_value; [done|lia].
Qed.

Lemma reverse_complement_kmer_odd_witness :
  kmer_value (reverse_complement (bytes_of_string "ACGGT"))
  <> kmer_value (bytes_of_string "ACGGT").
Proof.
  apply (reverse_complement_kmer_odd 0 5 0x3FF);
    [lia | reflexivity | reflexivity | repeat constructor | reflexivity].
Defined.

(** ** The encoder and its buffer *)

Lemma scan_window_cases window st :
  (exists st', scan_window window st = Ok st') \/
  scan_window window st = Fault TableOutOfBounds.
Proof.
  destruct (ascii_or_not window) as [Hw|Hw].
  - left. eexists. by apply scan_window_ascii.
  - right. by apply scan_window_not_ascii.
Qed.

(** X11: the encoder reads the first [k] bytes of its buffer and nothing
    after them: on a buffer of at least [k] bytes, [1 <= k <= 32], it never
    overruns, and two buffers with the same first [k] bytes give the same
    result. *)
Theorem sequence_to_canonical_kmer_reads_window
    (sequence sequence' : list byte) (k : Z)
    (Hk : 1 <= k <= 32)
    (Hlen : k <= Z.of_nat (length sequence))
    (Hlen' : k <= Z.of_nat (length sequence'))
    (Hsame : take (Z.to_nat k) sequence' = take (Z.to_nat k) sequence) :
  sequence_to_canonical_kmer sequence' k
    = sequence_to_canonical_kmer sequence k /\
  ((exists v, sequence_to_canonical_kmer sequence k = Ok v) \/
   sequence_to_canonical_kmer sequence k = Fault TableOutOfBounds).
Proof.
  rewrite !sequence_to_canonical_kmer_scan_prefix by done.
  rewrite Hsame. split; [done|].
  destruct (scan_window_cases (take (Z.to_nat k) sequence) (0, 0))
    as [[[kmer all_nucs] ->]| ->]; [left|by right].
  rewrite bind_Ok. by apply canonical_of_accumulators_returns.
Qed.

Lemma sequence_to_canonical_kmer_reads_window_witness :
  sequence_to_canonical_kmer (bytes_of_string "ACGTNNNN") 4
  = sequence_to_canonical_kmer (bytes_of_string "ACGT") 4.
Proof.
  apply (sequence_to_canonical_kmer_reads_window (bytes_of_string "ACGT")
           (bytes_of_string "ACGTNNNN") 4);
    [lia | simpl; lia | simpl; lia | reflexivity].
Defined.

(** X12: for [k <= 31] the sign of the result tells errors from k-mers: on
    a window of [k] 7-bit bytes the encoder returns a negative value
    exactly when some byte is not a base, and otherwise a value below
    [4^k]. *)
Theorem canonical_kmer_sign (window : list byte)
    (Hascii : Forall (fun c => is_ascii c = true) window)
    (Hk : 1 <= Z.of_nat (length window) <= 31) :
  exists v,
    sequence_to_canonical_kmer window (Z.of_nat (length window)) = Ok v /\
    (v < 0 <-> Exists (fun c => is_acgt c = false) window) /\
    (0 <= v -> v < 4 ^ Z.of_nat (length window)).
Proof.
  rewrite canonical_kmer_ascii_window by (done || lia).
  assert (Hinvalid : forall c, In c window ->
            is_unknown c = true \/ is_n c = true -> is_acgt c = false).
  { intros c _ [Hc|Hc].
    - unfold is_unknown in Hc.
      by destruct (is_acgt c); rewrite ?andb_false_r in Hc.
    - by destruct c. }
  destruct (existsb is_unknown window) eqn:Hu;
    [|destruct (existsb is_n window) eqn:Hn].
  - eexists. split; [done|]. unfold TWOBIT_UNKNOWN_CHAR.
    split; [split; [intros _|lia]|lia].
    apply existsb_exists in Hu as (c & Hin & Hc).
    apply List.Exists_exists. exists c. eauto.
  - eexists. split; [done|]. unfold TWOBIT_N_CHAR.
    split; [split; [intros _|lia]|lia].
    apply existsb_exists in Hn as (c & Hin & Hc).
    apply List.Exists_exists. exists c. eauto.
  - pose proof (no_flag_valid window Hascii Hu Hn) as Hw.
    pose proof (kmer_value_range window Hw) as Hf.
    pose proof (kmer_value_range _ (reverse_complement_valid _ Hw)) as Hr.
    rewrite length_reverse_complement in Hr.
    assert (4 ^ Z.of_nat (length window) <= 4 ^ 31)
      by (apply Z.pow_le_mono_r; lia).
    eexists. split; [done|].
    rewrite to_int64_small by (change (2 ^ 63) with (2 * 4 ^ 31); lia).
    split; [split|lia].
    + lia.
    + intros Hex. exfalso. apply List.Exists_exists in Hex as (c & Hin & Hc).
      rewrite List.Forall_forall in Hw. specialize (Hw c Hin). congruence.
Qed.

Lemma canonical_kmer_sign_witness :
  exists v,
    sequence_to_canonical_kmer (bytes_of_string "GATNACA") 7 = Ok v /\
    (v < 0 <-> Exists (fun c => is_acgt c = false)
                 (bytes_of_string "GATNACA")) /\
    (0 <= v -> v < 4 ^ 7).
Proof.
  apply (canonical_kmer_sign (bytes_of_string "GATNACA"));
    [repeat constructor | simpl; lia].
Defined.

(** ** Decoding in pieces *)

Lemma decode_bam_sequence_default_length mem d src e n out :
  0 <= d -> 0 <= e -> 0 <= n ->
  decode_bam_sequence_default mem d src e n = Ok out ->
  length out = length mem.
Proof.
  intros Hd He Hn Hok. destruct (Z.eq_dec n 0) as [->|Hpos].
  { rewrite decode_bam_sequence_default_zero in Hok. congruence. }
  destruct (decode_bam_sequence_default_ok_bounds mem d src e n out)
    as [Hm Hs]; [lia..|done|].
  rewrite decode_bam_sequence_default_closed in Hok by lia.
  injection Hok as <-.
  rewrite !length_app, !length_take, length_decode_bytes, !length_drop.
  Z.div_mod_to_equations. lia.
Qed.

(** The only fault of the reference decoder is an overrun. *)
Lemma decode_bam_sequence_default_fault mem d src e n f :
  0 <= d -> 0 <= e -> 0 <= n ->
  decode_bam_sequence_default mem d src e n = Fault f -> f = BufferOverrun.
Proof.
  intros Hd He Hn Hf. destruct (Z.eq_dec n 0) as [->|Hpos].
  { by rewrite decode_bam_sequence_default_zero in Hf. }
  destruct (Z.le_gt_cases (d + n) (Z.of_nat (length mem))) as [Hm|Hm];
    [destruct (Z.le_gt_cases (e + (n + 1) / 2) (Z.of_nat (length src)))
       as [Hs|Hs]|].
  - by rewrite decode_bam_sequence_default_closed in Hf by lia.
  - rewrite decode_bam_sequence_default_overrun in Hf by lia. congruence.
  - rewrite decode_bam_sequence_default_overrun in Hf by lia. congruence.
Qed.

(** X13: the reference decoder can be run in pieces: decoding the first
    [2m] bases and then the remaining [n - 2m] from pointers advanced by
    [2m] bases and [m] packed bytes gives the result of one call for [n]
    bases, the same buffer or the same overrun.  (This is the split the
    SSSE3 decoder relies on for its tail.) *)
Theorem decode_bam_sequence_default_chunks
    (mem src : list byte) (dest encoded_sequence m n : Z)
    (Hdest : 0 <= dest) (Henc : 0 <= encoded_sequence)
    (Hm : 0 <= m) (Hn : 2 * m <= n) :
  (mem' ← decode_bam_sequence_default mem dest src encoded_sequence (2 * m);
   decode_bam_sequence_default mem' (dest + 2 * m) src (encoded_sequence + m)
     (n - 2 * m))
  = decode_bam_sequence_default mem dest src encoded_sequence n.
Proof.
  destruct (Z.eq_dec m 0) as [->|Hm0].
  { change (2 * 0) with 0.
    rewrite decode_bam_sequence_default_zero, bind_Ok.
    by rewrite !Z.add_0_r, Z.sub_0_r. }
  destruct (Z.eq_dec n (2 * m)) as [->|Hrest].
  { rewrite Z.sub_diag.
    destruct (decode_bam_sequence_default mem dest src encoded_sequence
                (2 * m)) as [mem'|f]; [|done].
    by rewrite bind_Ok, decode_bam_sequence_default_zero. }
  assert (Hhalf : (n - 2 * m + 1) / 2 = (n + 1) / 2 - m)
    by (Z.div_mod_to_equations; lia).
  assert (Hhalf' : (2 * m + 1) / 2 = m) by (Z.div_mod_to_equations; lia).
  destruct (Z.le_gt_cases (dest + n) (Z.of_nat (length mem))) as [Hfm|Hfm];
    [destruct (Z.le_gt_cases (encoded_sequence + (n + 1) / 2)
                 (Z.of_nat (length src))) as [Hfs|Hfs]|].
  - rewrite (decode_bam_sequence_default_closed mem dest src encoded_sequence
               (2 * m)), bind_Ok by (Z.div_mod_to_equations; lia).
    set (blk := take (Z.to_nat (2 * m))
                  (decode_bytes (drop (Z.to_nat encoded_sequence) src))).
    assert (Hblk : length blk = Z.to_nat (2 * m)).
    { unfold blk. rewrite length_take, length_decode_bytes, length_drop.
      Z.div_mod_to_equations. lia. }
    assert (Hseg : Z.to_nat (dest + 2 * m)
                   = (Z.to_nat dest + length blk)%nat) by (Z.div_mod_to_equations; lia).
    rewrite decode_bam_sequence_default_closed;
      [|lia|lia|lia
       |rewrite !length_app, length_take, length_drop; lia
       |Z.div_mod_to_equations; lia].
    rewrite (decode_bam_sequence_default_closed mem dest src encoded_sequence
               n) by (Z.div_mod_to_equations; lia).
    rewrite Hseg, take_segment by (Z.div_mod_to_equations; lia).
    f_equal. rewrite <- app_assoc. f_equal.
    replace (Z.to_nat (dest + 2 * m + (n - 2 * m)))
      with (Z.to_nat (dest + n)) by (Z.div_mod_to_equations; lia).
    rewrite drop_segment by (Z.div_mod_to_equations; lia). rewrite app_assoc. f_equal.
    unfold blk.
    replace (Z.to_nat (2 * m)) with (2 * Z.to_nat m)%nat by (Z.div_mod_to_equations; lia).
    rewrite take_decode_bytes_even.
    rewrite <- (take_drop (Z.to_nat m) (drop (Z.to_nat encoded_sequence) src))
      at 2.
    rewrite decode_bytes_app, drop_drop.
    assert (Hmle : encoded_sequence + m <= Z.of_nat (length src))
      by (Z.div_mod_to_equations; lia).
    rewrite take_app_ge
      by (rewrite length_decode_bytes, length_take, length_drop; lia).
    f_equal.
    rewrite length_decode_bytes, length_take, length_drop.
    replace (Z.to_nat encoded_sequence + Z.to_nat m)%nat
      with (Z.to_nat (encoded_sequence + m)) by lia.
    f_equal. lia.
  - rewrite (decode_bam_sequence_default_overrun mem dest src
               encoded_sequence n) by (Z.div_mod_to_equations; lia).
    destruct (decode_bam_sequence_default mem dest src encoded_sequence
                (2 * m)) as [mem'|f] eqn:Hfirst.
    + rewrite bind_Ok.
      assert (H2m : 0 <= 2 * m) by lia.
      pose proof (decode_bam_sequence_default_length _ _ _ _ _ _
                    Hdest Henc H2m Hfirst) as Hlen.
      apply decode_bam_sequence_default_overrun; Z.div_mod_to_equations; lia.
    + assert (H2m : 0 <= 2 * m) by lia.
      by rewrite (decode_bam_sequence_default_fault _ _ _ _ _ _
                    Hdest Henc H2m Hfirst).
  - rewrite (decode_bam_sequence_default_overrun mem dest src
               encoded_sequence n) by (Z.div_mod_to_equations; lia).
    destruct (decode_bam_sequence_default mem dest src encoded_sequence
                (2 * m)) as [mem'|f] eqn:Hfirst.
    + rewrite bind_Ok.
      assert (H2m : 0 <= 2 * m) by lia.
      pose proof (decode_bam_sequence_default_length _ _ _ _ _ _
                    Hdest Henc H2m Hfirst) as Hlen.
      apply decode_bam_sequence_default_overrun; Z.div_mod_to_equations; lia.
    + assert (H2m : 0 <= 2 * m) by lia.
      by rewrite (decode_bam_sequence_default_fault _ _ _ _ _ _
                    Hdest Henc H2m Hfirst).
Qed.

Lemma decode_bam_sequence_default_chunks_witness :
  (mem' ← decode_bam_sequence_default (replicate 5 Byte.x00) 0
            (Z_to_byte <$> [0x12; 0x48; 0xf0]) 0 (2 * 1);
   decode_bam_sequence_default mem' (0 + 2 * 1)
     (Z_to_byte <$> [0x12; 0x48; 0xf0]) (0 + 1) (5 - 2 * 1))
  = decode_bam_sequence_default (replicate 5 Byte.x00) 0
      (Z_to_byte <$> [0x12; 0x48; 0xf0]) 0 5.
Proof.
  apply (decode_bam_sequence_default_chunks (replicate 5 Byte.x00)
           (Z_to_byte <$> [0x12; 0x48; 0xf0]) 0 0 1 5); lia.
Defined.

(** ** The encoder outside [1 <= k <= 32] *)

(** The two loops scan the whole window for every length a [Py_ssize_t]
    can hold, also when [k - 4] wraps around as a [size_t]. *)
Lemma sequence_to_canonical_kmer_scan_long (window : list byte) :
  Z.of_nat (length window) < 2 ^ 63 ->
  sequence_to_canonical_kmer window (Z.of_nat (length window))
  = '(kmer, all_nucs) ← scan_window window (0, 0);
    canonical_of_accumulators kmer all_nucs (Z.of_nat (length window)).
Proof.
  intros Hlen. unfold sequence_to_canonical_kmer. cbv zeta.
  rewrite !to_int64_small by lia.
  assert (Hve : Z.of_nat (length window) - 4 + 3 <= Z.of_nat (length window))
    by lia.
  pose proof (chunks_then_bases window _ _ Hve 0 (0, 0)) as Hloop.
  assert (Hk0 : 0 <= 0 <= Z.of_nat (length window)) by lia.
  pose proof (bases_loop_scan window _ (Z.le_refl _) 0 (0, 0) Hk0) as Hscan.
  cbv zeta in Hloop, Hscan. rewrite Hscan in Hloop. clear Hscan.
  change (Z.to_nat 0) with 0%nat in Hloop.
  rewrite drop_0, Z.sub_0_r, Nat2Z.id, firstn_all in Hloop.
  destruct (for_loop 0 (Z.of_nat (length window) - 4) 4 _ _) as [[i [kmer all_nucs]]|f].
  - rewrite bind_Ok. cbv beta iota. rewrite <- Hloop.
    by destruct (scan_window _ (0, 0)) as [[kmer' all_nucs']|f].
  - by destruct (scan_window _ (0, 0)) as [[kmer' all_nucs']|f'];
      simplify_eq/=.
Qed.

Lemma all_nucs_valid window : Forall (fun c => is_acgt c = true) window ->
  forall a, is_twobit a -> is_twobit (fold_left Z.lor (map twobit window) a).
Proof.
  induction 1 as [|c window Hc Hw IH]; intros a Ha; [done|].
  cbn [map fold_left]. apply IH, lor_twobit; [done|].
  destruct (twobit_acgt c Hc) as (_ & -> & Hb). exact Hb.
Qed.

Lemma not_acgt_flag window :
  Forall (fun c => is_ascii c = true) window ->
  Exists (fun c => is_acgt c = false) window ->
  existsb is_unknown window = true \/
  (existsb is_unknown window = false /\ existsb is_n window = true).
Proof.
  intros Hw Hex.
  destruct (existsb is_unknown window) eqn:Hu; [by left|right].
  split; [done|].
  destruct (existsb is_n window) eqn:Hn; [done|].
  pose proof (no_flag_valid window Hw Hu Hn) as Hvalid.
  apply List.Exists_exists in Hex as (c & Hin & Hc).
  rewrite List.Forall_forall in Hvalid. specialize (Hvalid c Hin). congruence.
Qed.

(** X14: the bound on [k] is needed for the k-mer and only for it.  On a
    window of [k] 7-bit bytes, whatever [k] is, a byte that is not a base
    makes the encoder return one of its two error values; on a window of
    bases it returns a value exactly when [1 <= k <= 32], and for [k = 0]
    or [k > 32] it reaches the shift by [64 - 2k], which is undefined. *)
Theorem canonical_kmer_k_range (window : list byte)
    (Hascii : Forall (fun c => is_ascii c = true) window)
    (Hlen : Z.of_nat (length window) < 2 ^ 63) :
  let k := Z.of_nat (length window) in
  let result := sequence_to_canonical_kmer window k in
  (Exists (fun c => is_acgt c = false) window ->
   result = Ok TWOBIT_UNKNOWN_CHAR \/ result = Ok TWOBIT_N_CHAR) /\
  (Forall (fun c => is_acgt c = true) window ->
   ((exists v, result = Ok v) <-> 1 <= k <= 32) /\
   (~ 1 <= k <= 32 -> result = Fault ShiftOutOfRange)).
Proof.
  cbv zeta.
  rewrite sequence_to_canonical_kmer_scan_long, scan_window_ascii by done.
  rewrite bind_Ok.
  pose proof (accumulate_all_nucs (map twobit window) (0, 0)) as Hall.
  destruct (fold_left accumulate_base _ _) as [kmer all_nucs].
  cbn [snd] in Hall. subst all_nucs. cbv beta iota.
  split.
  - intros Hex.
    destruct (all_nucs_flags window Hascii 0) as [H2 H3].
    rewrite Z.testbit_0_l in H2, H3. cbn [orb] in H2, H3.
    destruct (not_acgt_flag window Hascii Hex) as [Hu|[Hu Hn]].
    + left. apply canonical_of_accumulators_unknown;
        [by apply all_nucs_nonneg | by rewrite H2].
    + right. apply canonical_of_accumulators_n;
        [by apply all_nucs_nonneg | by rewrite H2 | by rewrite H3].
  - intros Hvalid.
    assert (Hflags : is_twobit (fold_left Z.lor (map twobit window) 0))
      by (apply all_nucs_valid; [done | unfold is_twobit; lia]).
    assert (Hout : ~ 1 <= Z.of_nat (length window) <= 32 ->
              canonical_of_accumulators kmer
                (fold_left Z.lor (map twobit window) 0)
                (Z.of_nat (length window)) = Fault ShiftOutOfRange).
    { intros Hk. unfold canonical_of_accumulators. cbv zeta.
      rewrite reverse_complement_kmer_undefined by (done || lia).
      unfold is_twobit in Hflags. rewrite Z.gtb_ltb.
      by destruct (Z.ltb_spec 3 (fold_left Z.lor (map twobit window) 0));
        [lia|]. }
    split; [split|done].
    + intros [v Hv].
      destruct (Z_le_dec 1 (Z.of_nat (length window))) as [H1|H1];
        [destruct (Z_le_dec (Z.of_nat (length window)) 32) as [H32|H32]|].
      * done.
      * rewrite Hout in Hv by lia. discriminate.
      * rewrite Hout in Hv by lia. discriminate.
    + intros Hk.
      destruct (canonical_of_accumulators_returns kmer
                  (fold_left Z.lor (map twobit window) 0)
                  (Z.of_nat (length window)) Hk) as [v Hv].
      by exists v.
Qed.

Lemma canonical_kmer_k_range_witness :
  sequence_to_canonical_kmer (replicate 33 "A"%byte) 33
    = Fault ShiftOutOfRange /\
  (sequence_to_canonical_kmer (replicate 32 "A"%byte ++ ["N"%byte]) 33
     = Ok TWOBIT_UNKNOWN_CHAR \/
   sequence_to_canonical_kmer (replicate 32 "A"%byte ++ ["N"%byte]) 33
     = Ok TWOBIT_N_CHAR).
Proof.
  split.
  - apply (canonical_kmer_k_range (replicate 33 "A"%byte)).
    + by repeat constructor.
    + vm_compute. reflexivity.
    + by repeat constructor.
    + rewrite length_replicate. lia.
  - apply (canonical_kmer_k_range (replicate 32 "A"%byte ++ ["N"%byte])).
    + by repeat constructor.
    + vm_compute. reflexivity.
    + apply List.Exists_exists. exists "N"%byte. split; [|reflexivity].
      apply in_or_app. right. by left.
Defined.
